(** * huge-allocs-test: a shallow embedding of [a.cc]

    The program times allocation, first touch, a parallel sum and release of
    a buffer of 16 Gi [int]s for three allocation strategies.  This file
    embeds the timer [ms], the three buffer classes [mmap_vec<sz>], [hp_vec]
    and [vec], the driver [run_bench<T>] and [main], and proves the
    properties claimed for them.

    Conventions.
    - [std::size_t] and pointers are 64-bit: a [Z] with the wrap-around
      [wrap64] written at every arithmetic operation of the source.
    - [int] is 32-bit two's complement; [static_cast<int>] of a [size_t] is
      [to_int], [static_cast<std::size_t>] of an [int] is [to_size_t].
    - Everything outside the program (the clock, [mmap], [posix_memalign],
      [madvise], [malloc], [munmap], [free]) is an oracle [env] carried by
      the world: a reply is a function of the calls made so far and of the
      arguments, so theorems quantified over the world hold for every
      behaviour of the operating system.
    - The two [#pragma omp parallel for] loops are run in index order.  The
      touch loop writes disjoint slots and the reduction adds modulo 2^64,
      which is associative and commutative, so the schedule does not change
      the result. *)

From Stdlib Require Import ZArith List String Bool Lia Permutation.
From Stdlib Require Import DecimalString.
Import ListNotations.
Local Open Scope string_scope.
Local Open Scope Z_scope.

(** ** Machine integers and pointers *)

Definition wrap64 (x : Z) : Z := x mod 2 ^ 64.

(** [static_cast<int>(i)] for [i : std::size_t]: the low 32 bits, read as a
    two's complement number. *)
Definition to_int (i : Z) : Z :=
  let r := i mod 2 ^ 32 in
  if r <? 2 ^ 31 then r else r - 2 ^ 32.

(** [static_cast<std::size_t>(x)] for [x : int]: sign extension to 64 bits,
    read as unsigned. *)
Definition to_size_t (x : Z) : Z := x mod 2 ^ 64.

Definition sizeof_int : Z := 4.

Definition ptr := Z.
Definition nullptr : ptr := 0.

(** Values of <sys/mman.h> on Linux x86-64.  [MAP_FAILED] is the all-ones
    address. *)
Definition MAP_FAILED : ptr := 2 ^ 64 - 1.
Definition PROT_READ : Z := 1.
Definition PROT_WRITE : Z := 2.
Definition MAP_PRIVATE : Z := 2.
Definition MAP_ANONYMOUS : Z := 32.
Definition MAP_HUGETLB : Z := 262144.
Definition MAP_HUGE_SHIFT : Z := 26.
Definition MADV_HUGEPAGE : Z := 14.

(** ** The world: heap, standard output, and the calls made to the system *)

Inductive event : Type :=
| ev_now
| ev_mmap (addr len prot flags fd off : Z)
| ev_munmap (addr len : Z)
| ev_posix_memalign (alignment len : Z)
| ev_madvise (addr len advice : Z)
| ev_malloc (len : Z)
| ev_free (addr : ptr).

(** What [posix_memalign] does: on success it stores the block's address in
    its first argument and returns 0; on failure it returns an error number
    and, on Linux, leaves the pointer it was given untouched. *)
Inductive memalign_result : Type :=
| memalign_ok (p : ptr)
| memalign_err (errnum : Z).

Record env : Type := mkEnv {
  clock_reply : list event -> Z;
  mmap_reply : list event -> Z -> Z -> Z -> Z -> Z -> Z -> ptr;
  posix_memalign_reply : list event -> Z -> Z -> memalign_result;
  madvise_reply : list event -> Z -> Z -> Z -> Z;
  malloc_reply : list event -> Z -> ptr;
  munmap_reply : list event -> Z -> Z -> Z
}.

Record world : Type := mkWorld {
  os : env;
  heap : Z -> Z;
  out : list string;
  trace : list event
}.

Definition log (e : event) (w : world) : world :=
  mkWorld (os w) (heap w) (out w) (trace w ++ [e]).

Definition emit (line : string) (w : world) : world :=
  mkWorld (os w) (heap w) (out w ++ [line]) (trace w).

Definition set_heap (h : Z -> Z) (w : world) : world :=
  mkWorld (os w) h (out w) (trace w).

(** [load h a] reads the [int] at byte address [a]; [store h a x] writes it.
    The heap holds one [int] cell per address of a first byte: a store at
    [a] is recorded in the cell at [a], and the cells at [a+1 .. a+3], whose
    bytes the store also covers, are given no meaning.  What is said of
    cells the program does not write is therefore said only of cells that
    share no byte with a written one. *)
Definition load (h : Z -> Z) (a : ptr) : Z := h a.
Definition store (h : Z -> Z) (a : ptr) (x : Z) : Z -> Z :=
  fun a' => if a' =? a then x else h a'.

(** ** Computations: state passing with C++ exceptions *)

Definition exn := string.

Inductive outcome (A : Type) : Type :=
| Ret (a : A) (w : world)
| Throw (e : exn) (w : world).
Arguments Ret {A} a w.
Arguments Throw {A} e w.

Definition M (A : Type) : Type := world -> outcome A.

Definition ret {A} (a : A) : M A := fun w => Ret a w.

Definition bind {A B} (m : M A) (k : A -> M B) : M B :=
  fun w => match m w with
           | Ret a w' => k a w'
           | Throw e w' => Throw e w'
           end.

Declare Scope bench_scope.
Delimit Scope bench_scope with bench.
Notation "x <- m ;; k" := (bind m (fun x => k))
  (at level 61, m at next level, right associativity) : bench_scope.
Notation "' pat <- m ;; k" := (bind m (fun x => match x with pat => k end))
  (at level 61, pat pattern, m at next level, right associativity) : bench_scope.
Notation "m ;; k" := (bind m (fun _ => k))
  (at level 61, right associativity) : bench_scope.
Local Open Scope bench_scope.

(** *** System calls *)

Definition now : M Z :=
  fun w => Ret (clock_reply (os w) (trace w)) (log ev_now w).

Definition mmap (addr len prot flags fd off : Z) : M ptr :=
  fun w => Ret (mmap_reply (os w) (trace w) addr len prot flags fd off)
               (log (ev_mmap addr len prot flags fd off) w).

Definition munmap (addr len : Z) : M Z :=
  fun w => Ret (munmap_reply (os w) (trace w) addr len)
               (log (ev_munmap addr len) w).

(** [posix_memalign (&p, alignment, len)], with [memptr] the value of [p]
    before the call: returns the return value and the value of [p] after. *)
Definition posix_memalign (memptr : ptr) (alignment len : Z) : M (Z * ptr) :=
  fun w => Ret (match posix_memalign_reply (os w) (trace w) alignment len with
                | memalign_ok p => (0, p)
                | memalign_err errnum => (errnum, memptr)
                end)
               (log (ev_posix_memalign alignment len) w).

Definition madvise (addr len advice : Z) : M Z :=
  fun w => Ret (madvise_reply (os w) (trace w) addr len advice)
               (log (ev_madvise addr len advice) w).

Definition malloc (len : Z) : M ptr :=
  fun w => Ret (malloc_reply (os w) (trace w) len) (log (ev_malloc len) w).

Definition free_ptr (p : ptr) : M unit :=
  fun w => Ret tt (log (ev_free p) w).

(** One [std::cout << ... << std::endl] statement: one line of output. *)
Definition println (line : string) : M unit :=
  fun w => Ret tt (emit line w).

(** Decimal text of an [unsigned long] and of a [long], as [operator<<]
    writes them. *)
Definition show_size_t (n : Z) : string :=
  NilZero.string_of_uint (N.to_uint (Z.to_N n)).
Definition show_long (n : Z) : string :=
  NilZero.string_of_int (Z.to_int n).

(** ** [for (std::size_t i = 0; i < size; ++i) body]

    [for_from] runs the loop from index [i]; [fuel] bounds the number of
    iterations and [for_loop] supplies [size] of it, which is enough
    ([for_fuel_enough]). *)

Fixpoint for_from {St : Type} (fuel : nat) (i size : Z)
    (body : Z -> St -> St) (s : St) : St :=
  match fuel with
  | O => s
  | S fuel' =>
      if i <? size
      then for_from fuel' (wrap64 (i + 1)) size body (body i s)
      else s
  end.

Definition for_loop {St : Type} (size : Z) (body : Z -> St -> St) (s : St) : St :=
  for_from (Z.to_nat size) 0 size body s.

(** ** [ms] (lines 9-16)

    The lambda handed to [ms] captures by reference; the values it leaves in
    the captured variables are the [A] it returns here.  The clock is read
    before and after, and the difference, in nanoseconds, is converted by
    [duration_cast<milliseconds>], an integer division rounding toward
    zero ([Z.quot]). *)

Definition ns_per_ms : Z := 1000000.

Definition ms {A} (f : M A) : M (Z * A) :=
  start <- now ;;
  a <- f ;;
  end_ <- now ;;
  ret (Z.quot (end_ - start) ns_per_ms, a).

(** ** [mmap_vec<sz>] (lines 18-52) *)

Module mmap_vec.

Record t : Type := mk { size : Z; data : ptr }.

(** [mmap_vec() = default] with the member initialisers of lines 50-51. *)
Definition default : t := mk 0 nullptr.

(** The flag word is computed in [int]: [sz << MAP_HUGE_SHIFT] keeps the low
    32 bits of the shifted value, read as a two's complement number. *)
Definition flags (sz : Z) : Z :=
  Z.lor (Z.lor (Z.lor MAP_HUGETLB (to_int (Z.shiftl sz MAP_HUGE_SHIFT)))
               MAP_PRIVATE)
        MAP_ANONYMOUS.

Definition init (sz : Z) (v : t) (size_ : Z) : M t :=
  let v := mk size_ (data v) in
  p <- mmap nullptr (wrap64 (sizeof_int * size_))
            (Z.lor PROT_READ PROT_WRITE) (flags sz) (-1) 0 ;;
  ret (mk (size v) p).

(** The empty [asm] statement emits no instruction. *)
Definition free (v : t) : M unit :=
  _ <- munmap (data v) (wrap64 (sizeof_int * size v)) ;;
  ret tt.

(** [operator[]]: the address of slot [i]. *)
Definition index (v : t) (i : Z) : ptr := data v + sizeof_int * i.

Definition sum (v : t) : M Z :=
  fun w =>
    Ret (for_loop (size v)
           (fun i ans => wrap64 (ans + to_size_t (load (heap w) (index v i))))
           0)
        w.

Definition ok (v : t) : bool := negb (data v =? MAP_FAILED).

End mmap_vec.

(** ** [hp_vec] (lines 54-86) *)

Module hp_vec.

Record t : Type := mk { size : Z; data : ptr }.

Definition default : t := mk 0 nullptr.

Definition init (v : t) (size_ : Z) : M t :=
  let v := mk size_ (data v) in
  r <- posix_memalign (data v) (Z.shiftl 1 21 * 1) (wrap64 (size_ * sizeof_int)) ;;
  let v := mk (size v) (snd r) in
  _ <- madvise (data v) (wrap64 (sizeof_int * size_)) MADV_HUGEPAGE ;;
  ret v.

Definition free (v : t) : M unit := free_ptr (data v).

Definition index (v : t) (i : Z) : ptr := data v + sizeof_int * i.

Definition sum (v : t) : M Z :=
  fun w =>
    Ret (for_loop (size v)
           (fun i ans => wrap64 (ans + to_size_t (load (heap w) (index v i))))
           0)
        w.

Definition ok (v : t) : bool := negb (data v =? nullptr).

End hp_vec.

(** ** [vec] (lines 88-118) *)

Module vec.

Record t : Type := mk { size : Z; data : ptr }.

Definition default : t := mk 0 nullptr.

Definition init (v : t) (size_ : Z) : M t :=
  let v := mk size_ (data v) in
  p <- malloc (wrap64 (sizeof_int * size_)) ;;
  ret (mk (size v) p).

Definition free (v : t) : M unit := free_ptr (data v).

Definition index (v : t) (i : Z) : ptr := data v + sizeof_int * i.

Definition sum (v : t) : M Z :=
  fun w =>
    Ret (for_loop (size v)
           (fun i ans => wrap64 (ans + to_size_t (load (heap w) (index v i))))
           0)
        w.

Definition ok (v : t) : bool := negb (data v =? nullptr).

End vec.

(** ** The template parameter [T] of [run_bench]

    [run_bench<T>] uses [T]'s default constructor, [init], [ok],
    [operator[]], [sum] and [free]. *)

Class Buffer (T : Type) : Type := {
  buf_default : T;
  buf_init : T -> Z -> M T;
  buf_free : T -> M unit;
  buf_index : T -> Z -> ptr;
  buf_sum : T -> M Z;
  buf_ok : T -> bool
}.

#[export] Instance mmap_vec_buffer (sz : Z) : Buffer mmap_vec.t := {|
  buf_default := mmap_vec.default;
  buf_init := mmap_vec.init sz;
  buf_free := mmap_vec.free;
  buf_index := mmap_vec.index;
  buf_sum := mmap_vec.sum;
  buf_ok := mmap_vec.ok
|}.

#[export] Instance hp_vec_buffer : Buffer hp_vec.t := {|
  buf_default := hp_vec.default;
  buf_init := hp_vec.init;
  buf_free := hp_vec.free;
  buf_index := hp_vec.index;
  buf_sum := hp_vec.sum;
  buf_ok := hp_vec.ok
|}.

#[export] Instance vec_buffer : Buffer vec.t := {|
  buf_default := vec.default;
  buf_init := vec.init;
  buf_free := vec.free;
  buf_index := vec.index;
  buf_sum := vec.sum;
  buf_ok := vec.ok
|}.

(** ** [run_bench<T>] (lines 120-148) *)

(** The touch loop of lines 133-138: [v[i] = static_cast<int>(i)]. *)
Definition touch {T : Type} {B : Buffer T} (v : T) (size : Z) : M unit :=
  fun w =>
    Ret tt
        (set_heap (for_loop size
                     (fun i h => store h (buf_index v i) (to_int i))
                     (heap w))
                  w).

Definition bench_size : Z := 16 * 1024 * 1024 * 1024.

(** [run_bench_sized] is [run_bench] with the local constant [size] as an
    argument; [run_bench] fixes it to the value of line 122. *)
Definition run_bench_sized {T : Type} {B : Buffer T} (size : Z) (name : string)
  : M unit :=
  let v := buf_default in
  r <- ms (buf_init v size) ;;
  let t_alloc := fst r in
  let v := snd r in
  if negb (buf_ok v) then
    println (name ++ " failed to allocate memory") ;;
    println "" ;;
    ret tt
  else
    r <- ms (touch v size) ;;
    let t_touch := fst r in
    r <- ms (s <- buf_sum v ;;
             println (name ++ " sum: " ++ show_size_t s)) ;;
    let t_sum := fst r in
    r <- ms (buf_free v) ;;
    let t_free := fst r in
    println (name ++ " time alloc: " ++ show_long t_alloc ++ " ms") ;;
    println (name ++ " time touch: " ++ show_long t_touch ++ " ms") ;;
    println (name ++ " time sum: " ++ show_long t_sum ++ " ms") ;;
    println (name ++ " time free: " ++ show_long t_free ++ " ms") ;;
    println "".

Definition run_bench {T : Type} {B : Buffer T} (name : string) : M unit :=
  run_bench_sized bench_size name.

(** ** [main] (lines 149-160): the value returned is the exit status. *)

Definition main : M Z :=
  r <- ms (run_bench (B := hp_vec_buffer) "thp") ;;
  let t_thp := fst r in
  r <- ms (run_bench (B := mmap_vec_buffer 21) "2mb_hp") ;;
  let t_2mb_hp := fst r in
  r <- ms (run_bench (B := mmap_vec_buffer 30) "1gb_hp") ;;
  let t_1gb_hp := fst r in
  r <- ms (run_bench (B := vec_buffer) "malloc") ;;
  let t_malloc := fst r in
  println ("time thp: " ++ show_long t_thp ++ " ms") ;;
  println ("time 2mb_hp: " ++ show_long t_2mb_hp ++ " ms") ;;
  println ("time 1gb_hp: " ++ show_long t_1gb_hp ++ " ms") ;;
  println ("time malloc: " ++ show_long t_malloc ++ " ms") ;;
  ret 0.

(** ** What the specification says the sum after the touch pass is

    [sign_extend32 u] reads the 32-bit pattern [u] as a two's complement
    number; [signed_prefix_sum k] adds the sign-extended values of
    [i mod 2^32] for [i < k] as integers, and [post_touch_sum n] reduces
    that sum modulo 2^64. *)

Definition sign_extend32 (u : Z) : Z :=
  if Z.testbit u 31 then u - 2 ^ 32 else u.

Fixpoint signed_prefix_sum (k : nat) : Z :=
  match k with
  | O => 0
  | S k' => signed_prefix_sum k' + sign_extend32 (Z.of_nat k' mod 2 ^ 32)
  end.

Definition post_touch_sum (n : Z) : Z :=
  signed_prefix_sum (Z.to_nat n) mod 2 ^ 64.

(** [triangular n] is the sum of the integers below [n]. *)
Definition triangular (n : Z) : Z := n * (n - 1) / 2.

(** Calls that acquire memory, and calls that give it back. *)
Definition is_alloc (e : event) : bool :=
  match e with
  | ev_mmap _ _ _ _ _ _ | ev_posix_memalign _ _ | ev_malloc _ => true
  | _ => false
  end.

Definition is_release (e : event) : bool :=
  match e with
  | ev_munmap _ _ | ev_free _ => true
  | _ => false
  end.

(** The environment [e] with every [madvise] call returning [r]. *)
Definition with_madvise (r : Z) (e : env) : env :=
  mkEnv (clock_reply e) (mmap_reply e) (posix_memalign_reply e)
        (fun _ _ _ _ => r) (malloc_reply e) (munmap_reply e).

Definition set_os (e : env) (w : world) : world :=
  mkWorld e (heap w) (out w) (trace w).

(** The lines [run_bench<T>(name)] can print. *)
Definition failure_report (name : string) : list string :=
  [name ++ " failed to allocate memory"; ""].

Definition success_report (name : string) (s t_alloc t_touch t_sum t_free : Z)
  : list string :=
  [name ++ " sum: " ++ show_size_t s;
   name ++ " time alloc: " ++ show_long t_alloc ++ " ms";
   name ++ " time touch: " ++ show_long t_touch ++ " ms";
   name ++ " time sum: " ++ show_long t_sum ++ " ms";
   name ++ " time free: " ++ show_long t_free ++ " ms";
   ""].

Definition bench_report (name : string) (lines : list string) : Prop :=
  lines = failure_report name \/
  exists s t_alloc t_touch t_sum t_free,
    lines = success_report name s t_alloc t_touch t_sum t_free.

(** A world for examples: the clock advances 1.5 ms per call made, the
    2 MiB mapping and both heap allocators succeed, the 1 GiB mapping and
    [madvise] fail. *)
Definition demo_env : env :=
  mkEnv (fun tr => 1500000 * Z.of_nat (List.length tr))
        (fun _ _ _ _ flags _ _ =>
           if flags =? mmap_vec.flags 30 then MAP_FAILED else 1073741824)
        (fun _ _ _ => memalign_ok 2097152)
        (fun _ _ _ _ => -1)
        (fun _ _ => 4096)
        (fun _ _ _ => 0).

Definition demo_world : world := mkWorld demo_env (fun _ => 0) [] [].

(** The same with memory exhausted: every allocator fails. *)
Definition starved_env : env :=
  mkEnv (clock_reply demo_env)
        (fun _ _ _ _ _ _ _ => MAP_FAILED)
        (fun _ _ _ => memalign_err 12)
        (madvise_reply demo_env)
        (fun _ _ => nullptr)
        (munmap_reply demo_env).

Definition starved_world : world := mkWorld starved_env (fun _ => 0) [] [].

(** ** What the three classes have in common

    Each keeps [size] and [data], addresses slot [i] at [data + 4 * i], sums
    with the same loop, and has total [init] and [free] that print nothing,
    write nothing to the heap and make one allocation request. *)

Record BufferLaws {T : Type} (B : Buffer T)
    (size_of : T -> Z) (data_of : T -> ptr) (request : Z -> event) : Prop := {
  law_index : forall v i, buf_index v i = data_of v + sizeof_int * i;
  law_sum : forall v w,
    buf_sum v w =
    Ret (for_loop (size_of v)
           (fun i ans => wrap64 (ans + to_size_t (load (heap w) (buf_index v i))))
           0) w;
  law_init : forall v n w,
    exists v' w',
      buf_init v n w = Ret v' w' /\ size_of v' = n /\
      heap w' = heap w /\ out w' = out w /\
      filter is_alloc (trace w') =
      (filter is_alloc (trace w) ++ [request n])%list /\
      filter is_release (trace w') = filter is_release (trace w);
  law_free : forall v w,
    exists w',
      buf_free v w = Ret tt w' /\ out w' = out w /\
      filter is_alloc (trace w') = filter is_alloc (trace w)
}.

Definition mmap_vec_request (sz n : Z) : event :=
  ev_mmap nullptr (wrap64 (sizeof_int * n)) (Z.lor PROT_READ PROT_WRITE)
          (mmap_vec.flags sz) (-1) 0.

Definition hp_vec_request (n : Z) : event :=
  ev_posix_memalign (Z.shiftl 1 21 * 1) (wrap64 (n * sizeof_int)).

Definition vec_request (n : Z) : event :=
  ev_malloc (wrap64 (sizeof_int * n)).

(** [init(n)] on a default-constructed buffer, the touch pass of [run_bench]
    and [sum()], in that order: [init] returns, and if [ok()] then holds,
    the touch pass returns and [sum()] returns [expected]. *)
Definition sum_after_touch {T : Type} (B : Buffer T) (n : Z) (w : world)
    (expected : Z) : Prop :=
  exists v1 w1,
    buf_init buf_default n w = Ret v1 w1 /\
    (buf_ok v1 = true ->
     exists w2, touch v1 n w1 = Ret tt w2 /\ buf_sum v1 w2 = Ret expected w2).

(** The same sequence, saying also what the touch pass leaves in the slots:
    slot [i] holds the sign extension of the low 32 bits of [i], which is
    negative exactly when bit 31 of [i] is set, and [sum()] returns
    [post_touch_sum n]. *)
Definition touch_casts_and_sum_extends {T : Type} (B : Buffer T) (n : Z)
    (w : world) : Prop :=
  exists v1 w1,
    buf_init buf_default n w = Ret v1 w1 /\
    (buf_ok v1 = true ->
     exists w2,
       touch v1 n w1 = Ret tt w2 /\
       (forall i, 0 <= i < n ->
          load (heap w2) (buf_index v1 i) = sign_extend32 (i mod 2 ^ 32) /\
          (load (heap w2) (buf_index v1 i) < 0 <-> Z.testbit i 31 = true)) /\
       buf_sum v1 w2 = Ret (post_touch_sum n) w2).

(** What the system answers to the request that [init(n)] makes in [w]. *)
Definition mmap_vec_reply (sz n : Z) (w : world) : ptr :=
  mmap_reply (os w) (trace w) nullptr (wrap64 (sizeof_int * n))
             (Z.lor PROT_READ PROT_WRITE) (mmap_vec.flags sz) (-1) 0.

Definition hp_vec_reply (n : Z) (w : world) : memalign_result :=
  posix_memalign_reply (os w) (trace w) (Z.shiftl 1 21 * 1)
                       (wrap64 (n * sizeof_int)).

Definition vec_reply (n : Z) (w : world) : ptr :=
  malloc_reply (os w) (trace w) (wrap64 (sizeof_int * n)).

(** [t] is [elapsed] nanoseconds in whole milliseconds, the remainder
    dropped: rounding is toward zero. *)
Definition truncates_to_ms (elapsed t : Z) : Prop :=
  Z.abs (ns_per_ms * t) <= Z.abs elapsed < Z.abs (ns_per_ms * t) + ns_per_ms /\
  (0 <= elapsed -> 0 <= t) /\
  (elapsed <= 0 -> t <= 0).

(** [run_bench<T>(name)] when [init] leaves [ok()] false: the run returns
    having printed the failure notice and the blank line only, with the heap
    as it was and no [munmap] or [free] issued; the last thing it did was the
    clock read that ends the timing of [init]. *)
Definition failed_run {T : Type} (B : Buffer T) (name : string) (w : world)
  : Prop :=
  exists v w1,
    buf_init buf_default bench_size (log ev_now w) = Ret v w1 /\
    (buf_ok v = false ->
     exists w',
       run_bench name w = Ret tt w' /\
       out w' = (out w ++ failure_report name)%list /\
       heap w' = heap w /\
       filter is_release (trace w') = filter is_release (trace w) /\
       trace w' = (trace w1 ++ [ev_now])%list).

(** The four lines [main] prints last. *)
Definition summary (t_thp t_2mb_hp t_1gb_hp t_malloc : Z) : list string :=
  ["time thp: " ++ show_long t_thp ++ " ms";
   "time 2mb_hp: " ++ show_long t_2mb_hp ++ " ms";
   "time 1gb_hp: " ++ show_long t_1gb_hp ++ " ms";
   "time malloc: " ++ show_long t_malloc ++ " ms"].

(** ** Other schedules of the two loops

    [indices n] is [0 .. n-1]; [run_in_order order body s] runs the loop body
    once for each index of [order], in that order.  [touch_body] and
    [sum_body] are the bodies of the touch loop and of the reduction for a
    buffer at [base]. *)

Definition indices (n : Z) : list Z := map Z.of_nat (seq 0 (Z.to_nat n)).

Definition run_in_order {St : Type} (order : list Z) (body : Z -> St -> St)
    (s : St) : St :=
  fold_left (fun s' i => body i s') order s.

Definition touch_body (base : ptr) (i : Z) (h : Z -> Z) : Z -> Z :=
  store h (base + sizeof_int * i) (to_int i).

Definition sum_body (h : Z -> Z) (base : ptr) (i : Z) (ans : Z) : Z :=
  wrap64 (ans + to_size_t (load h (base + sizeof_int * i))).

(** ** Definitions for the properties beyond the claims *)

(** The reading the clock gives in [w]. *)
Definition clock (w : world) : Z := clock_reply (os w) (trace w).

(** A clock that never runs backwards as calls are made. *)
Definition clock_monotone (e : env) : Prop :=
  forall tr tr' : list event, clock_reply e tr <= clock_reply e (tr ++ tr')%list.

(** The call each [free()] makes. *)
Definition mmap_vec_release (v : mmap_vec.t) : event :=
  ev_munmap (mmap_vec.data v) (wrap64 (sizeof_int * mmap_vec.size v)).

Definition hp_vec_release (v : hp_vec.t) : event := ev_free (hp_vec.data v).

Definition vec_release (v : vec.t) : event := ev_free (vec.data v).

(** The pointer [hp_vec::init(n)] leaves in [data], and the advice it asks
    for. *)
Definition hp_vec_data_after (v : hp_vec.t) (n : Z) (w : world) : ptr :=
  match hp_vec_reply n w with
  | memalign_ok p => p
  | memalign_err _ => hp_vec.data v
  end.

Definition hp_vec_advice (p : ptr) (n : Z) : event :=
  ev_madvise p (wrap64 (sizeof_int * n)) MADV_HUGEPAGE.

(** The calls each [init(n)] makes. *)
Definition mmap_vec_acquire (sz : Z) (v : mmap_vec.t) (n : Z) (w : world)
  : list event :=
  [mmap_vec_request sz n].

Definition hp_vec_acquire (v : hp_vec.t) (n : Z) (w : world) : list event :=
  [hp_vec_request n; hp_vec_advice (hp_vec_data_after v n w) n].

Definition vec_acquire (v : vec.t) (n : Z) (w : world) : list event :=
  [vec_request n].

(** [init] and [free] step by step: the world each leaves. *)
Record BufferSteps {T : Type} (B : Buffer T)
    (acquire : T -> Z -> world -> list event) (release : T -> event) : Prop := {
  step_init : forall v n w,
    exists v',
      buf_init v n w =
      Ret v' (mkWorld (os w) (heap w) (out w) (trace w ++ acquire v n w));
  step_free : forall v w, buf_free v w = Ret tt (log (release v) w);
  step_acquire : forall v n w, filter is_release (acquire v n w) = [];
  step_release : forall v, is_release (release v) = true
}.

(** The calls of a run of the driver in which [init] succeeds: the eight
    clock reads of the four timed phases, with the allocation inside the
    first pair and the release inside the last. *)
Definition phases_trace (acquire : list event) (release : event) : list event :=
  ([ev_now] ++ acquire ++
   [ev_now; ev_now; ev_now; ev_now; ev_now; ev_now; release; ev_now])%list.

(** The contents of the first [k] slots at [base], added as integers. *)
Fixpoint slot_sum (h : Z -> Z) (base : ptr) (k : nat) : Z :=
  match k with
  | O => 0
  | S k' => slot_sum h base k' + load h (base + sizeof_int * Z.of_nat k')
  end.

(** A reduction run by several threads: each adds its chunk of the indices
    into a private accumulator that starts at 0, and the accumulators are
    added up. *)
Definition reduce_chunks (h : Z -> Z) (base : ptr) (chunks : list (list Z)) : Z :=
  fold_left
    (fun total chunk => wrap64 (total + run_in_order chunk (sum_body h base) 0))
    chunks 0.

(** A report and the time measured around the run that printed it: no time
    is negative, and the four phase times do not add up to more than the
    time of the whole run. *)
Definition timed_report (name : string) (lines : list string) (t : Z) : Prop :=
  0 <= t /\
  (lines = failure_report name \/
   exists s t_alloc t_touch t_sum t_free,
     lines = success_report name s t_alloc t_touch t_sum t_free /\
     0 <= t_alloc /\ 0 <= t_touch /\ 0 <= t_sum /\ 0 <= t_free /\
     t_alloc + t_touch + t_sum + t_free <= t).

(** A report and the releases made by the run that printed it: when the
    block was granted, the timings and the one release [rel]; when it was
    refused, the failure notice and no release. *)
Definition released_report (name : string) (lines : list string)
    (releases : list event) (granted : bool) (rel : event) : Prop :=
  if granted
  then (exists s t_alloc t_touch t_sum t_free,
           lines = success_report name s t_alloc t_touch t_sum t_free) /\
       releases = [rel]
  else lines = failure_report name /\ releases = [].

(** A clock for examples that runs backwards. *)
Definition backward_env : env :=
  mkEnv (fun tr => - 1500000 * Z.of_nat (List.length tr))
        (mmap_reply demo_env) (posix_memalign_reply demo_env)
        (madvise_reply demo_env) (malloc_reply demo_env)
        (munmap_reply demo_env).

(** [run_bench<T>(name)] when [init] has obtained a block at [base]: the
    run returns; it has printed the sum line, with the value the 16 Gi slots
    add up to, then the four timings and the blank line; its calls are those
    of [phases_trace]; and slot [i] of the released block holds the [int]
    that [i] was cast to, and every [int] cell that shares no byte with the
    block what it held before. *)
Definition successful_run {T : Type} (B : Buffer T) (name : string) (w : world)
    (acq : list event) (rel : event) (base : ptr) : Prop :=
  exists w' t_alloc t_touch t_sum t_free,
    run_bench name w = Ret tt w' /\
    out w' =
    (out w ++
     success_report name 18446744065119617024 t_alloc t_touch t_sum t_free)%list /\
    trace w' = (trace w ++ phases_trace acq rel)%list /\
    (forall i, 0 <= i < bench_size ->
       load (heap w') (base + sizeof_int * i) = to_int i) /\
    (forall a,
       a + sizeof_int <= base \/ base + sizeof_int * bench_size <= a ->
       heap w' a = heap w a).



(** The pointer each variant of [main] holds after [init], [w] being the
    world its timed run starts in. *)
Definition granted_thp (w : world) : ptr :=
  hp_vec_data_after hp_vec.default bench_size (log ev_now (log ev_now w)).

Definition granted_huge (sz : Z) (w : world) : ptr :=
  mmap_vec_reply sz bench_size (log ev_now (log ev_now w)).

Definition granted_malloc (w : world) : ptr :=
  vec_reply bench_size (log ev_now (log ev_now w)).

(** * Proofs *)

(** ** Machine arithmetic *)

Lemma wrap64_small (x : Z) : 0 <= x < 2 ^ 64 -> wrap64 x = x.
Proof. intros Hx. unfold wrap64. apply Z.mod_small. exact Hx. Qed.

Lemma testbit31_low (u : Z) : 0 <= u < 2 ^ 31 -> Z.testbit u 31 = false.
Proof.
  intros Hu. destruct (Z.eq_dec u 0) as [-> | Hne].
  - apply Z.testbit_0_l.
  - apply Z.bits_above_log2; [lia |].
    apply Z.log2_lt_pow2; lia.
Qed.

Lemma testbit31_high (u : Z) : 2 ^ 31 <= u < 2 ^ 32 -> Z.testbit u 31 = true.
Proof.
  intros Hu. apply Z.testbit_true; [lia |].
  replace (u / 2 ^ 31) with 1; [reflexivity |].
  apply Z.div_unique with (r := u - 2 ^ 31); lia.
Qed.

(** The cast of the source and the sign extension of the specification
    agree. *)
Lemma to_int_sign_extend (i : Z) : to_int i = sign_extend32 (i mod 2 ^ 32).
Proof.
  unfold to_int, sign_extend32.
  assert (Hr : 0 <= i mod 2 ^ 32 < 2 ^ 32) by (apply Z.mod_pos_bound; lia).
  destruct (i mod 2 ^ 32 <? 2 ^ 31) eqn:E.
  - apply Z.ltb_lt in E. rewrite testbit31_low by lia. reflexivity.
  - apply Z.ltb_ge in E. rewrite testbit31_high by lia. reflexivity.
Qed.

Lemma to_int_range (i : Z) : - 2 ^ 31 <= to_int i < 2 ^ 31.
Proof.
  unfold to_int.
  assert (Hr : 0 <= i mod 2 ^ 32 < 2 ^ 32) by (apply Z.mod_pos_bound; lia).
  destruct (i mod 2 ^ 32 <? 2 ^ 31) eqn:E.
  - apply Z.ltb_lt in E. lia.
  - apply Z.ltb_ge in E. lia.
Qed.

(** [to_int i] is negative exactly when bit 31 of [i] is set. *)
Lemma to_int_negative (i : Z) : to_int i < 0 <-> Z.testbit i 31 = true.
Proof.
  assert (Hbit : Z.testbit (i mod 2 ^ 32) 31 = Z.testbit i 31)
    by (apply Z.mod_pow2_bits_low; lia).
  assert (Hr : 0 <= i mod 2 ^ 32 < 2 ^ 32) by (apply Z.mod_pos_bound; lia).
  rewrite <- Hbit. unfold to_int.
  destruct (i mod 2 ^ 32 <? 2 ^ 31) eqn:E.
  - apply Z.ltb_lt in E. rewrite testbit31_low by lia.
    split; [lia | discriminate].
  - apply Z.ltb_ge in E. rewrite testbit31_high by lia.
    split; [reflexivity | lia].
Qed.

(** Writing [i + 2^31] as [2^32 * q + r] gives the cast in closed form. *)
Lemma to_int_quotient (i q r : Z) :
  i + 2 ^ 31 = 2 ^ 32 * q + r -> 0 <= r < 2 ^ 32 ->
  to_int i = i - 2 ^ 32 * q.
Proof.
  intros Hi Hr. unfold to_int.
  destruct (Z_lt_ge_dec r (2 ^ 31)) as [Hlo | Hhi].
  - assert (Hm : i mod 2 ^ 32 = r + 2 ^ 31).
    { symmetry. apply Z.mod_unique with (q := q - 1); lia. }
    rewrite Hm.
    destruct (r + 2 ^ 31 <? 2 ^ 31) eqn:E.
    + apply Z.ltb_lt in E. lia.
    + lia.
  - assert (Hm : i mod 2 ^ 32 = r - 2 ^ 31).
    { symmetry. apply Z.mod_unique with (q := q); lia. }
    rewrite Hm.
    destruct (r - 2 ^ 31 <? 2 ^ 31) eqn:E.
    + lia.
    + apply Z.ltb_ge in E. lia.
Qed.

(** ** The sum of the stored values in closed form

    With [n + 2^31 = 2^32 * q + r], the values [to_int 0 .. to_int (n-1)]
    add up to [n*(n-1)/2 - 2^32 * (2^32 * q*(q-1)/2 + q*r)]: each index
    contributes itself, less [2^32] for every time its low 32 bits have
    passed [2^31]. *)

Lemma signed_prefix_sum_succ (k : nat) :
  signed_prefix_sum (S k) = signed_prefix_sum k + to_int (Z.of_nat k).
Proof. cbn [signed_prefix_sum]. rewrite to_int_sign_extend. reflexivity. Qed.

Lemma signed_prefix_sum_closed (k : nat) :
  forall q r : Z,
    Z.of_nat k + 2 ^ 31 = 2 ^ 32 * q + r -> 0 <= r < 2 ^ 32 ->
    2 * signed_prefix_sum k =
    Z.of_nat k * (Z.of_nat k - 1) - 2 ^ 32 * (2 ^ 32 * q * (q - 1) + 2 * q * r).
Proof.
  induction k as [| k IH]; intros q r Hk Hr.
  - assert (q = 0) by lia. subst q.
    cbn [signed_prefix_sum]. change (Z.of_nat 0) with 0. lia.
  - rewrite signed_prefix_sum_succ, Nat2Z.inj_succ.
    unfold Z.succ in *. rewrite Nat2Z.inj_succ in Hk. unfold Z.succ in Hk.
    set (n := Z.of_nat k) in *.
    destruct (Z.eq_dec r 0) as [-> | Hr0].
    + rewrite (to_int_quotient n (q - 1) (2 ^ 32 - 1)) by lia.
      specialize (IH (q - 1) (2 ^ 32 - 1)).
      rewrite Z.mul_add_distr_l, IH by lia.
      replace n with (2 ^ 32 * q - 1 - 2 ^ 31) by lia. ring.
    + rewrite (to_int_quotient n q (r - 1)) by lia.
      specialize (IH q (r - 1)).
      rewrite Z.mul_add_distr_l, IH by lia.
      replace n with (2 ^ 32 * q + r - 1 - 2 ^ 31) by lia. ring.
Qed.

Lemma triangular_double (n : Z) : 2 * triangular n = n * (n - 1).
Proof.
  unfold triangular.
  assert (H : (n * (n - 1)) mod 2 = 0).
  { rewrite Z.mul_mod by lia.
    assert (Hn : n mod 2 = 0 \/ n mod 2 = 1)
      by (pose proof (Z.mod_pos_bound n 2); lia).
    destruct Hn as [Hn | Hn].
    - rewrite Hn. reflexivity.
    - replace ((n - 1) mod 2) with 0.
      + rewrite Z.mul_0_r. reflexivity.
      + apply Z.mod_unique with (q := n / 2); [lia |].
        pose proof (Z.div_mod n 2). lia. }
  pose proof (Z.div_mod (n * (n - 1)) 2). lia.
Qed.

(** Up to [2^31] elements no stored value is negative and the sum is the
    triangular number. *)
Lemma signed_prefix_sum_small (n : Z) :
  0 <= n <= 2 ^ 31 -> signed_prefix_sum (Z.to_nat n) = triangular n.
Proof.
  intros Hn.
  pose proof (triangular_double n) as Ht.
  destruct (Z.eq_dec n (2 ^ 31)) as [-> | Hne].
  - pose proof (signed_prefix_sum_closed (Z.to_nat (2 ^ 31)) 1 0) as H.
    rewrite Z2Nat.id in H by lia. lia.
  - pose proof (signed_prefix_sum_closed (Z.to_nat n) 0 (n + 2 ^ 31)) as H.
    rewrite Z2Nat.id in H by lia. lia.
Qed.

Lemma triangular_bound (n : Z) :
  0 <= n <= 2 ^ 31 -> 0 <= triangular n < 2 ^ 64.
Proof.
  intros Hn. pose proof (triangular_double n). nia.
Qed.

(** ** The counting loop *)

Lemma for_from_invariant {St : Type} (P : Z -> St -> Prop) (size : Z)
    (body : Z -> St -> St) :
  size < 2 ^ 64 ->
  (forall j s, 0 <= j < size -> P j s -> P (j + 1) (body j s)) ->
  forall (fuel : nat) (i : Z) (s : St),
    0 <= i <= size -> (Z.to_nat (size - i) <= fuel)%nat ->
    P i s -> P size (for_from fuel i size body s).
Proof.
  intros Hsize Hstep.
  induction fuel as [| fuel IH]; intros i s Hi Hfuel HP.
  - cbn [for_from]. replace size with i by lia. exact HP.
  - cbn [for_from]. destruct (i <? size) eqn:E.
    + apply Z.ltb_lt in E. rewrite wrap64_small by lia.
      apply IH; [lia | lia | apply Hstep; [lia | exact HP]].
    + apply Z.ltb_ge in E. replace size with i by lia. exact HP.
Qed.

Lemma for_loop_invariant {St : Type} (P : Z -> St -> Prop) (size : Z)
    (body : Z -> St -> St) (s : St) :
  0 <= size < 2 ^ 64 ->
  P 0 s ->
  (forall j s', 0 <= j < size -> P j s' -> P (j + 1) (body j s')) ->
  P size (for_loop size body s).
Proof.
  intros Hsize H0 Hstep. unfold for_loop.
  apply for_from_invariant; try assumption; lia.
Qed.

(** Any fuel of at least [size - i] gives the same result: the loop has
    ended by then. *)
Lemma for_fuel_enough {St : Type} (size : Z) (body : Z -> St -> St) :
  size < 2 ^ 64 ->
  forall (fuel fuel' : nat) (i : Z) (s : St),
    0 <= i <= size ->
    (Z.to_nat (size - i) <= fuel)%nat -> (Z.to_nat (size - i) <= fuel')%nat ->
    for_from fuel i size body s = for_from fuel' i size body s.
Proof.
  intros Hsize.
  induction fuel as [| fuel IH]; intros fuel' i s Hi Hf Hf'.
  - assert (i = size) by lia. subst i.
    destruct fuel'; cbn [for_from]; [reflexivity |].
    rewrite Z.ltb_irrefl. reflexivity.
  - destruct fuel' as [| fuel'].
    + assert (i = size) by lia. subst i.
      cbn [for_from]. rewrite Z.ltb_irrefl. reflexivity.
    + cbn [for_from]. destruct (i <? size) eqn:E; [| reflexivity].
      apply Z.ltb_lt in E. rewrite wrap64_small by lia.
      apply IH; lia.
Qed.

Lemma for_loop_ext {St : Type} (size : Z) (body body' : Z -> St -> St) (s : St) :
  (forall i s', body i s' = body' i s') ->
  for_loop size body s = for_loop size body' s.
Proof.
  intros Hext. unfold for_loop.
  generalize (Z.to_nat size) as fuel, 0 as i, s as s0.
  induction fuel as [| fuel IH]; intros i s0; cbn [for_from]; [reflexivity |].
  destruct (i <? size); [| reflexivity].
  rewrite Hext. apply IH.
Qed.

(** ** The touch loop and the reduction *)

Lemma touch_loop_slots (n : Z) (base : ptr) (h : Z -> Z) :
  0 <= n < 2 ^ 64 ->
  forall i, 0 <= i < n ->
    for_loop n (fun i h => store h (base + sizeof_int * i) (to_int i)) h
      (base + sizeof_int * i) = to_int i.
Proof.
  intros Hn.
  apply (for_loop_invariant
           (fun j h' => forall i, 0 <= i < j ->
                          h' (base + sizeof_int * i) = to_int i)).
  - exact Hn.
  - intros i Hi. lia.
  - intros j h' Hj IH i Hi. unfold store, sizeof_int in *.
    destruct (base + 4 * i =? base + 4 * j) eqn:E.
    + apply Z.eqb_eq in E. replace i with j by lia. reflexivity.
    + apply Z.eqb_neq in E. apply IH. lia.
Qed.

Lemma sum_loop_value (n : Z) (base : ptr) (h : Z -> Z) :
  0 <= n < 2 ^ 64 ->
  (forall i, 0 <= i < n -> h (base + sizeof_int * i) = to_int i) ->
  for_loop n
    (fun i ans => wrap64 (ans + to_size_t (load h (base + sizeof_int * i)))) 0
  = post_touch_sum n.
Proof.
  intros Hn Hslots. unfold post_touch_sum.
  apply (for_loop_invariant
           (fun j ans => ans = signed_prefix_sum (Z.to_nat j) mod 2 ^ 64)).
  - exact Hn.
  - reflexivity.
  - intros j ans Hj ->. unfold load, wrap64, to_size_t.
    rewrite Hslots by exact Hj.
    replace (Z.to_nat (j + 1)) with (S (Z.to_nat j)) by lia.
    rewrite signed_prefix_sum_succ, Z2Nat.id by lia.
    symmetry. apply Z.add_mod. lia.
Qed.

(** ** The schedule of the parallel loops does not matter

    The loop of the model is the run over [indices n]; the reduction gives
    the same total for every permutation of the indices and for every split
    into two partial sums, and the touch pass leaves the same heap. *)

Lemma for_from_in_order {St : Type} (size : Z) (body : Z -> St -> St) :
  size < 2 ^ 64 ->
  forall (fuel : nat) (i : Z) (s : St),
    0 <= i -> i + Z.of_nat fuel = size ->
    for_from fuel i size body s =
    run_in_order (map Z.of_nat (seq (Z.to_nat i) fuel)) body s.
Proof.
  intros Hsize. unfold run_in_order.
  induction fuel as [| fuel IH]; intros i s Hi Hfuel; [reflexivity |].
  cbn [for_from seq map fold_left].
  replace (i <? size) with true by (symmetry; apply Z.ltb_lt; lia).
  rewrite wrap64_small, Z2Nat.id by lia.
  rewrite IH by lia.
  replace (Z.to_nat (i + 1)) with (S (Z.to_nat i)) by lia. reflexivity.
Qed.

Lemma for_loop_in_order {St : Type} (size : Z) (body : Z -> St -> St) (s : St) :
  0 <= size < 2 ^ 64 ->
  for_loop size body s = run_in_order (indices size) body s.
Proof.
  intros Hsize. unfold for_loop, indices.
  apply (for_from_in_order size body); lia.
Qed.

Lemma sum_body_swap (h : Z -> Z) (base : ptr) (i j ans : Z) :
  sum_body h base i (sum_body h base j ans) =
  sum_body h base j (sum_body h base i ans).
Proof.
  unfold sum_body, wrap64.
  rewrite !Zplus_mod_idemp_l. f_equal. lia.
Qed.

Lemma reduction_permutation (h : Z -> Z) (base : ptr) (order order' : list Z) :
  Permutation order order' ->
  forall ans,
    run_in_order order (sum_body h base) ans =
    run_in_order order' (sum_body h base) ans.
Proof.
  unfold run_in_order.
  induction 1 as [| x l l' _ IH | x y l | l l' l'' _ IH1 _ IH2]; intros ans.
  - reflexivity.
  - cbn [fold_left]. apply IH.
  - cbn [fold_left]. rewrite sum_body_swap. reflexivity.
  - rewrite IH1. apply IH2.
Qed.

Lemma reduction_range (h : Z -> Z) (base : ptr) (order : list Z) (ans : Z) :
  0 <= ans < 2 ^ 64 ->
  0 <= run_in_order order (sum_body h base) ans < 2 ^ 64.
Proof.
  unfold run_in_order. revert ans.
  induction order as [| i order IH]; intros ans Hans; [exact Hans |].
  cbn [fold_left]. apply IH. unfold sum_body, wrap64.
  apply Z.mod_pos_bound. lia.
Qed.

Lemma reduction_from (h : Z -> Z) (base : ptr) (order : list Z) (ans : Z) :
  0 <= ans < 2 ^ 64 ->
  run_in_order order (sum_body h base) ans =
  wrap64 (ans + run_in_order order (sum_body h base) 0).
Proof.
  unfold run_in_order. revert ans.
  induction order as [| i order IH]; intros ans Hans.
  - cbn [fold_left]. rewrite Z.add_0_r, wrap64_small; [reflexivity | exact Hans].
  - cbn [fold_left].
    assert (Hr : forall a, 0 <= sum_body h base i a < 2 ^ 64)
      by (intros a; unfold sum_body, wrap64; apply Z.mod_pos_bound; lia).
    rewrite (IH (sum_body h base i ans)) by apply Hr.
    rewrite (IH (sum_body h base i 0)) by apply Hr.
    unfold sum_body, wrap64. cbn [Z.add].
    rewrite !Zplus_mod_idemp_l, Zplus_mod_idemp_r. f_equal. lia.
Qed.

(** Two threads, each with a private accumulator starting at 0, combined
    with [+]. *)
Lemma reduction_two_chunks (h : Z -> Z) (base : ptr) (chunk1 chunk2 : list Z) :
  run_in_order (chunk1 ++ chunk2) (sum_body h base) 0 =
  wrap64 (run_in_order chunk1 (sum_body h base) 0 +
          run_in_order chunk2 (sum_body h base) 0).
Proof.
  unfold run_in_order at 1. rewrite fold_left_app.
  apply reduction_from. apply reduction_range. lia.
Qed.

Lemma touch_body_swap (base : ptr) (i j : Z) (h : Z -> Z) (a : Z) :
  touch_body base i (touch_body base j h) a =
  touch_body base j (touch_body base i h) a.
Proof.
  unfold touch_body, store, sizeof_int.
  destruct (a =? base + 4 * i) eqn:Ei; destruct (a =? base + 4 * j) eqn:Ej;
    try reflexivity.
  apply Z.eqb_eq in Ei, Ej. replace i with j by lia. reflexivity.
Qed.

Lemma touch_in_order_ext (base : ptr) (order : list Z) (h h' : Z -> Z) :
  (forall a, h a = h' a) ->
  forall a, run_in_order order (touch_body base) h a =
            run_in_order order (touch_body base) h' a.
Proof.
  unfold run_in_order. revert h h'.
  induction order as [| i order IH]; intros h h' Heq; [exact Heq |].
  cbn [fold_left]. apply IH. intros a. unfold touch_body, store.
  rewrite Heq. reflexivity.
Qed.

Lemma touch_permutation (base : ptr) (order order' : list Z) :
  Permutation order order' ->
  forall h a,
    run_in_order order (touch_body base) h a =
    run_in_order order' (touch_body base) h a.
Proof.
  induction 1 as [| x l l' _ IH | x y l | l l' l'' _ IH1 _ IH2]; intros h a.
  - reflexivity.
  - unfold run_in_order in *. cbn [fold_left]. apply IH.
  - unfold run_in_order. cbn [fold_left].
    apply (touch_in_order_ext base l). intros a'. apply touch_body_swap.
  - rewrite IH1. apply IH2.
Qed.

(** Whatever order the iterations are scheduled in, the touch pass followed
    by the reduction gives what the in-order loops give. *)
Lemma schedule_irrelevant (n : Z) (base : ptr) (h : Z -> Z)
    (order order' : list Z) :
  0 <= n < 2 ^ 64 ->
  Permutation (indices n) order -> Permutation (indices n) order' ->
  (forall a, run_in_order order (touch_body base) h a =
             for_loop n (touch_body base) h a) /\
  run_in_order order' (sum_body h base) 0 = for_loop n (sum_body h base) 0.
Proof.
  intros Hn Hp Hp'. split.
  - intros a. rewrite for_loop_in_order by exact Hn.
    symmetry. apply touch_permutation. exact Hp.
  - rewrite for_loop_in_order by exact Hn.
    symmetry. apply reduction_permutation. exact Hp'.
Qed.

(** The loops of the three classes are these bodies under [for_loop]. *)
Lemma loops_are_bodies (sz : Z) (w : world) :
  (forall v : mmap_vec.t,
      mmap_vec.sum v w =
      Ret (for_loop (mmap_vec.size v) (sum_body (heap w) (mmap_vec.data v)) 0) w /\
      touch (B := mmap_vec_buffer sz) v (mmap_vec.size v) w =
      Ret tt (set_heap (for_loop (mmap_vec.size v)
                          (touch_body (mmap_vec.data v)) (heap w)) w)) /\
  (forall v : hp_vec.t,
      hp_vec.sum v w =
      Ret (for_loop (hp_vec.size v) (sum_body (heap w) (hp_vec.data v)) 0) w /\
      touch v (hp_vec.size v) w =
      Ret tt (set_heap (for_loop (hp_vec.size v)
                          (touch_body (hp_vec.data v)) (heap w)) w)) /\
  (forall v : vec.t,
      vec.sum v w =
      Ret (for_loop (vec.size v) (sum_body (heap w) (vec.data v)) 0) w /\
      touch v (vec.size v) w =
      Ret tt (set_heap (for_loop (vec.size v)
                          (touch_body (vec.data v)) (heap w)) w)).
Proof.
  split; [| split]; intros v; split; reflexivity.
Qed.

(** ** The three classes satisfy the common laws *)

(** [frame] settles what a call leaves unchanged: it projects the fields of
    the new world and drops from the filtered trace the events the filter
    rejects. *)
Ltac frame :=
  cbn [log emit set_heap heap out trace];
  rewrite ?filter_app;
  cbn [filter is_alloc is_release mmap_vec_request hp_vec_request vec_request];
  rewrite ?app_nil_r;
  repeat split.

Lemma mmap_vec_laws (sz : Z) :
  BufferLaws (mmap_vec_buffer sz) mmap_vec.size mmap_vec.data
             (mmap_vec_request sz).
Proof.
  constructor.
  - reflexivity.
  - reflexivity.
  - intros v n w. do 2 eexists. split; [reflexivity | frame].
  - intros v w. eexists. split; [reflexivity | frame].
Qed.

Lemma hp_vec_laws :
  BufferLaws hp_vec_buffer hp_vec.size hp_vec.data hp_vec_request.
Proof.
  constructor.
  - reflexivity.
  - reflexivity.
  - intros v n w.
    cbv [buf_init hp_vec_buffer hp_vec.init bind posix_memalign madvise ret].
    do 2 eexists. split; [reflexivity | frame].
  - intros v w. eexists. split; [reflexivity | frame].
Qed.

Lemma vec_laws : BufferLaws vec_buffer vec.size vec.data vec_request.
Proof.
  constructor.
  - reflexivity.
  - reflexivity.
  - intros v n w. do 2 eexists. split; [reflexivity | frame].
  - intros v w. eexists. split; [reflexivity | frame].
Qed.

(** ** Touch, then sum *)

Section Laws.

Context {T : Type} {B : Buffer T}.
Context {size_of : T -> Z} {data_of : T -> ptr} {request : Z -> event}.
Hypothesis laws : BufferLaws B size_of data_of request.

Lemma touch_then_sum (v : T) (n : Z) (w : world) :
  0 <= n < 2 ^ 64 -> size_of v = n ->
  exists w2,
    touch v n w = Ret tt w2 /\
    buf_sum v w2 = Ret (post_touch_sum n) w2 /\
    out w2 = out w /\ trace w2 = trace w /\
    (forall i, 0 <= i < n -> load (heap w2) (buf_index v i) = to_int i).
Proof.
  intros Hn Hsize.
  pose proof (law_index _ _ _ _ laws) as Hidx.
  assert (Hslots : forall i, 0 <= i < n ->
            for_loop n (fun i h => store h (buf_index v i) (to_int i)) (heap w)
              (data_of v + sizeof_int * i) = to_int i).
  { intros i Hi.
    rewrite (for_loop_ext n _
               (fun i h => store h (data_of v + sizeof_int * i) (to_int i))).
    - apply touch_loop_slots; assumption.
    - intros j h. rewrite Hidx. reflexivity. }
  eexists. split; [reflexivity |]. split; [| split; [| split]].
  - rewrite (law_sum _ _ _ _ laws), Hsize. f_equal.
    cbn [heap set_heap].
    rewrite (for_loop_ext n _
               (fun i ans =>
                  wrap64 (ans + to_size_t
                    (load (for_loop n
                             (fun i h => store h (buf_index v i) (to_int i))
                             (heap w))
                          (data_of v + sizeof_int * i))))).
    + apply sum_loop_value; assumption.
    + intros j ans. rewrite Hidx. reflexivity.
  - reflexivity.
  - reflexivity.
  - intros i Hi. cbn [heap set_heap]. unfold load. rewrite Hidx.
    apply Hslots. exact Hi.
Qed.

(** [init], touch and [sum] in sequence from a default-constructed buffer. *)
Lemma sum_after_touch_value (n : Z) (w : world) :
  0 <= n < 2 ^ 64 -> sum_after_touch B n w (post_touch_sum n).
Proof.
  intros Hn. unfold sum_after_touch.
  destruct (law_init _ _ _ _ laws buf_default n w)
    as (v1 & w1 & Hinit & Hsize & _).
  exists v1, w1. split; [exact Hinit |]. intros _.
  destruct (touch_then_sum v1 n w1 Hn Hsize) as (w2 & Ht & Hs & _).
  exists w2. split; assumption.
Qed.

Lemma touch_casts_and_sum_extends_holds (n : Z) (w : world) :
  0 <= n < 2 ^ 64 -> touch_casts_and_sum_extends B n w.
Proof.
  intros Hn. unfold touch_casts_and_sum_extends.
  destruct (law_init _ _ _ _ laws buf_default n w)
    as (v1 & w1 & Hinit & Hsize & _).
  exists v1, w1. split; [exact Hinit |]. intros _.
  destruct (touch_then_sum v1 n w1 Hn Hsize)
    as (w2 & Ht & Hs & _ & _ & Hslots).
  exists w2. split; [exact Ht |]. split; [| exact Hs].
  intros i Hi. rewrite (Hslots i Hi). split.
  - apply to_int_sign_extend.
  - apply to_int_negative.
Qed.

End Laws.

(** ** Values of the sum *)

Lemma post_touch_sum_closed (n q r : Z) :
  0 <= n -> n + 2 ^ 31 = 2 ^ 32 * q + r -> 0 <= r < 2 ^ 32 ->
  post_touch_sum n =
  (triangular n - 2 ^ 32 * (2 ^ 32 * triangular q + q * r)) mod 2 ^ 64.
Proof.
  intros Hn Hq Hr. unfold post_touch_sum. f_equal.
  pose proof (signed_prefix_sum_closed (Z.to_nat n) q r) as H.
  rewrite Z2Nat.id in H by exact Hn. specialize (H Hq Hr).
  pose proof (triangular_double n) as Htn.
  pose proof (triangular_double q) as Htq.
  set (s := signed_prefix_sum (Z.to_nat n)) in *.
  set (tn := triangular n) in *. set (tq := triangular q) in *.
  nia.
Qed.

Lemma post_touch_sum_small (n : Z) :
  0 <= n <= 2 ^ 31 -> post_touch_sum n = triangular n.
Proof.
  intros Hn. unfold post_touch_sum.
  rewrite signed_prefix_sum_small by exact Hn.
  apply Z.mod_small, triangular_bound, Hn.
Qed.

(** One element past [2^31]: the last slot holds [INT_MIN]. *)
Lemma post_touch_sum_past_int_max :
  post_touch_sum (2 ^ 31 + 1) = 2305843005992468480.
Proof.
  rewrite (post_touch_sum_closed (2 ^ 31 + 1) 1 1).
  - vm_compute. reflexivity.
  - vm_compute. discriminate.
  - vm_compute. reflexivity.
  - split; vm_compute; [discriminate | reflexivity].
Qed.

(** The size [run_bench] uses: the slots run four times through all [int]
    values, and the sum printed is [2^64 - 2^33]. *)
Lemma post_touch_sum_bench_size :
  post_touch_sum bench_size = 18446744065119617024.
Proof.
  rewrite (post_touch_sum_closed bench_size 4 (2 ^ 31)).
  - vm_compute. reflexivity.
  - vm_compute. discriminate.
  - vm_compute. reflexivity.
  - split; vm_compute; [discriminate | reflexivity].
Qed.

(** * The claims *)

(** ** Sums after the touch pass *)

(** C1, as the code has it: for each of [mmap_vec<sz>], [hp_vec] and [vec]
    and every [n] up to [2^31], after [init(n)] succeeds and the touch pass
    has written [static_cast<int>(i)] into every slot [i < n], [sum()]
    returns exactly [n*(n-1)/2], which is below [2^64]. *)
Theorem sum_after_touch_triangular (n : Z) (w : world) (sz : Z) :
  0 <= n <= 2 ^ 31 ->
  sum_after_touch (mmap_vec_buffer sz) n w (triangular n) /\
  sum_after_touch hp_vec_buffer n w (triangular n) /\
  sum_after_touch vec_buffer n w (triangular n) /\
  0 <= triangular n < 2 ^ 64.
Proof.
  intros Hn.
  assert (Hn64 : 0 <= n < 2 ^ 64) by lia.
  rewrite <- (post_touch_sum_small n Hn) at 1 2 3.
  repeat split.
  - apply (sum_after_touch_value (mmap_vec_laws sz)); exact Hn64.
  - apply (sum_after_touch_value hp_vec_laws); exact Hn64.
  - apply (sum_after_touch_value vec_laws); exact Hn64.
  - apply triangular_bound; exact Hn.
  - apply triangular_bound; exact Hn.
Qed.

Lemma sum_after_touch_triangular_witness :
  0 <= 1000 <= 2 ^ 31 /\
  sum_after_touch (mmap_vec_buffer 21) 1000 demo_world (triangular 1000) /\
  sum_after_touch hp_vec_buffer 1000 demo_world (triangular 1000) /\
  sum_after_touch vec_buffer 1000 demo_world (triangular 1000) /\
  0 <= triangular 1000 < 2 ^ 64.
Proof.
  split; [lia |].
  apply (sum_after_touch_triangular 1000 demo_world 21). lia.
Defined.

(** C1 as stated fails above [2^31]: with [n = 2^31 + 1] the heap variant's
    [init] succeeds in [demo_world], slot [2^31] receives
    [static_cast<int>(2^31) = -2^31], and [sum()] returns
    [2^61 - 3 * 2^30 = 2305843005992468480], not
    [n*(n-1)/2 = 2305843010287435776]. *)
Lemma sum_after_touch_not_triangular :
  (exists v1 w1 w2,
      vec.init vec.default (2 ^ 31 + 1) demo_world = Ret v1 w1 /\
      vec.ok v1 = true /\
      touch v1 (2 ^ 31 + 1) w1 = Ret tt w2 /\
      load (heap w2) (vec.index v1 (2 ^ 31)) = - 2 ^ 31 /\
      vec.sum v1 w2 = Ret 2305843005992468480 w2) /\
  triangular (2 ^ 31 + 1) = 2305843010287435776 /\
  2 ^ 31 + 1 <= 2 ^ 34 /\
  ~ sum_after_touch vec_buffer (2 ^ 31 + 1) demo_world (triangular (2 ^ 31 + 1)).
Proof.
  set (n := 2 ^ 31 + 1).
  assert (Hn : 0 <= n < 2 ^ 64) by (unfold n; lia).
  set (v1 := vec.mk n 4096).
  set (w1 := log (ev_malloc (wrap64 (sizeof_int * n))) demo_world).
  assert (Hinit : vec.init vec.default n demo_world = Ret v1 w1) by reflexivity.
  destruct (touch_then_sum vec_laws v1 n w1 Hn eq_refl)
    as (w2 & Ht & Hs & _ & _ & Hslots).
  assert (Hsum : post_touch_sum n = 2305843005992468480)
    by apply post_touch_sum_past_int_max.
  assert (Htri : triangular n = 2305843010287435776) by reflexivity.
  split; [| split; [exact Htri | split; [unfold n; lia |]]].
  - exists v1, w1, w2.
    split; [exact Hinit |]. split; [reflexivity |].
    split; [exact Ht |]. split.
    + change (vec.index v1 (2 ^ 31)) with (buf_index v1 (2 ^ 31)).
      rewrite Hslots by (unfold n; lia). reflexivity.
    + change (vec.sum v1 w2) with (buf_sum v1 w2). rewrite Hs, Hsum. reflexivity.
  - intros (v1' & w1' & Hinit' & Hrest).
    change (buf_init buf_default n demo_world) with
      (vec.init vec.default n demo_world) in Hinit'.
    rewrite Hinit in Hinit'. injection Hinit' as <- <-.
    destruct (Hrest eq_refl) as (w2' & Ht' & Hs').
    rewrite Ht in Ht'. injection Ht' as <-.
    rewrite Hs, Hsum, Htri in Hs'. discriminate Hs'.
Qed.

(** C2: for [vec], after [init(1024)] succeeds and the touch pass has
    written [0 .. 1023], [sum()] returns 523776. *)
Theorem vec_sum_1024 (w : world) :
  sum_after_touch vec_buffer 1024 w 523776.
Proof.
  replace 523776 with (post_touch_sum 1024).
  - apply (sum_after_touch_value vec_laws). lia.
  - rewrite post_touch_sum_small by lia. reflexivity.
Qed.

(** C9: for each of the three classes and every [n : std::size_t], after
    [init(n)] succeeds the touch pass leaves in slot [i] the low 32 bits of
    [i] read as a signed number (negative exactly when bit 31 of [i] is
    set), and [sum()] returns the sum of these sign-extended values modulo
    [2^64]. *)
Theorem post_touch_sum_sign_extended (n : Z) (w : world) (sz : Z) :
  0 <= n < 2 ^ 64 ->
  touch_casts_and_sum_extends (mmap_vec_buffer sz) n w /\
  touch_casts_and_sum_extends hp_vec_buffer n w /\
  touch_casts_and_sum_extends vec_buffer n w.
Proof.
  intros Hn. repeat split.
  - apply (touch_casts_and_sum_extends_holds (mmap_vec_laws sz)); exact Hn.
  - apply (touch_casts_and_sum_extends_holds hp_vec_laws); exact Hn.
  - apply (touch_casts_and_sum_extends_holds vec_laws); exact Hn.
Qed.

Lemma post_touch_sum_sign_extended_witness :
  0 <= 2 ^ 34 < 2 ^ 64 /\
  touch_casts_and_sum_extends (mmap_vec_buffer 21) (2 ^ 34) demo_world /\
  touch_casts_and_sum_extends hp_vec_buffer (2 ^ 34) demo_world /\
  touch_casts_and_sum_extends vec_buffer (2 ^ 34) demo_world.
Proof.
  split; [lia |].
  apply (post_touch_sum_sign_extended (2 ^ 34) demo_world 21). lia.
Defined.

(** ** The timer *)

Lemma quot_truncates (elapsed : Z) :
  truncates_to_ms elapsed (Z.quot elapsed ns_per_ms).
Proof.
  unfold truncates_to_ms, ns_per_ms.
  pose proof (Z.quot_rem' elapsed 1000000) as Hqr.
  destruct (Z_le_gt_dec 0 elapsed) as [Hpos | Hneg].
  - pose proof (Z.rem_bound_pos elapsed 1000000 Hpos ltac:(lia)). lia.
  - pose proof (Z.rem_bound_pos (- elapsed) 1000000 ltac:(lia) ltac:(lia)) as Hb.
    rewrite Z.rem_opp_l' in Hb. lia.
Qed.

Lemma ms_ret {A : Type} (f : M A) (w w1 : world) (a : A) :
  f (log ev_now w) = Ret a w1 ->
  ms f w =
  Ret (Z.quot (clock_reply (os w1) (trace w1) - clock_reply (os w) (trace w))
              ns_per_ms, a)
      (log ev_now w1).
Proof.
  intros Hf. unfold ms, bind, now, ret. rewrite Hf. reflexivity.
Qed.

Lemma ms_throw {A : Type} (f : M A) (w w1 : world) (e : exn) :
  f (log ev_now w) = Throw e w1 -> ms f w = Throw e w1.
Proof.
  intros Hf. unfold ms, bind, now, ret. rewrite Hf. reflexivity.
Qed.

(** C7: [ms f] reads the clock, runs [f] once in the world it was called
    in, reads the clock again, and returns the difference in whole
    milliseconds, rounded toward zero.  The world it leaves is the one [f]
    left, with the second clock read recorded: heap and output are [f]'s.
    If [f] throws, [ms f] throws the same exception from the same world. *)
Theorem ms_runs_once {A : Type} (f : M A) (w : world) :
  match f (log ev_now w) with
  | Ret a w1 =>
      exists t,
        ms f w = Ret (t, a) (log ev_now w1) /\
        truncates_to_ms
          (clock_reply (os w1) (trace w1) - clock_reply (os w) (trace w)) t /\
        heap (log ev_now w1) = heap w1 /\ out (log ev_now w1) = out w1
  | Throw e w1 => ms f w = Throw e w1
  end.
Proof.
  destruct (f (log ev_now w)) as [a w1 | e w1] eqn:Hf.
  - eexists. split; [apply ms_ret; exact Hf |].
    split; [apply quot_truncates |]. split; reflexivity.
  - apply ms_throw. exact Hf.
Qed.

(** A unit of work that prints one line and takes 1.5 ms on the demo clock
    is run once and timed at 1 ms; one that throws is not caught. *)
Example ms_println_once :
  ms (println "work") demo_world =
  Ret (1, tt) (mkWorld demo_env (heap demo_world) ["work"] [ev_now; ev_now]).
Proof. reflexivity. Qed.

Example ms_rethrows :
  ms (fun w => Throw (A := unit) "bad_alloc" w) demo_world =
  Throw "bad_alloc" (log ev_now demo_world).
Proof. reflexivity. Qed.

(** ** [ok()] *)

(** C10: on a default-constructed buffer the data pointer is null, which is
    not the [MAP_FAILED] address, so [mmap_vec::ok()] is true while
    [hp_vec::ok()] and [vec::ok()] are false. *)
Theorem ok_before_init :
  mmap_vec.data mmap_vec.default = nullptr /\
  nullptr <> MAP_FAILED /\
  mmap_vec.ok mmap_vec.default = true /\
  hp_vec.data hp_vec.default = nullptr /\
  hp_vec.ok hp_vec.default = false /\
  vec.data vec.default = nullptr /\
  vec.ok vec.default = false.
Proof.
  repeat split. unfold nullptr, MAP_FAILED. lia.
Qed.

(** C8: when the mapping request of [mmap_vec<sz>::init(n)] is refused, the
    buffer holds [MAP_FAILED] in [data] and [n] in [size]. *)
Theorem mmap_vec_failed_init_keeps_size (sz : Z) (v : mmap_vec.t) (n : Z)
    (w : world) :
  mmap_vec_reply sz n w = MAP_FAILED ->
  exists v' w',
    mmap_vec.init sz v n w = Ret v' w' /\
    mmap_vec.ok v' = false /\
    mmap_vec.data v' = MAP_FAILED /\
    mmap_vec.size v' = n.
Proof.
  intros Hreply.
  exists (mmap_vec.mk n (mmap_vec_reply sz n w)),
         (log (mmap_vec_request sz n) w).
  split; [reflexivity |].
  unfold mmap_vec.ok. cbn [mmap_vec.data mmap_vec.size].
  rewrite Hreply, Z.eqb_refl. split; [reflexivity | split; reflexivity].
Qed.

Lemma mmap_vec_failed_init_keeps_size_witness :
  mmap_vec_reply 30 bench_size starved_world = MAP_FAILED /\
  exists v' w',
    mmap_vec.init 30 mmap_vec.default bench_size starved_world = Ret v' w' /\
    mmap_vec.ok v' = false /\
    mmap_vec.data v' = MAP_FAILED /\
    mmap_vec.size v' = bench_size.
Proof.
  split; [reflexivity |].
  apply (mmap_vec_failed_init_keeps_size 30 mmap_vec.default bench_size
           starved_world).
  reflexivity.
Defined.



(** The three outcomes in the example worlds, by evaluation. *)
Example ok_after_init_granted :
  (exists v' w', mmap_vec.init 21 mmap_vec.default bench_size demo_world
                 = Ret v' w' /\ mmap_vec.ok v' = true) /\
  (exists v' w', hp_vec.init hp_vec.default bench_size demo_world
                 = Ret v' w' /\ hp_vec.ok v' = true) /\
  (exists v' w', vec.init vec.default bench_size demo_world
                 = Ret v' w' /\ vec.ok v' = true).
Proof.
  split; [| split]; do 2 eexists; (split; [cbv; reflexivity | reflexivity]).
Qed.

Example ok_after_init_refused :
  (exists v' w', mmap_vec.init 30 mmap_vec.default bench_size starved_world
                 = Ret v' w' /\ mmap_vec.ok v' = false) /\
  (exists v' w', hp_vec.init hp_vec.default bench_size starved_world
                 = Ret v' w' /\ hp_vec.ok v' = false) /\
  (exists v' w', vec.init vec.default bench_size starved_world
                 = Ret v' w' /\ vec.ok v' = false).
Proof.
  split; [| split]; do 2 eexists; (split; [cbv; reflexivity | reflexivity]).
Qed.

(** [hp_vec::init] does not look at what [posix_memalign] returns: when the
    request is refused, the pointer the buffer held before stays in place. *)
Remark hp_vec_refused_init_keeps_pointer (v : hp_vec.t) (n : Z) (w : world)
    (errnum : Z) :
  hp_vec_reply n w = memalign_err errnum ->
  exists v' w',
    hp_vec.init v n w = Ret v' w' /\ hp_vec.data v' = hp_vec.data v.
Proof.
  intros Hreply.
  cbv [hp_vec.init bind posix_memalign madvise ret].
  fold (hp_vec_reply n w). rewrite Hreply.
  do 2 eexists. split; reflexivity.
Qed.

(** C4: when [posix_memalign] grants the block, [hp_vec::init] leaves
    [ok()] true whatever [madvise] returns; the advice is requested for the
    block and its result is dropped. *)
Theorem hp_vec_ok_whatever_madvise (v : hp_vec.t) (n : Z) (w : world)
    (p : ptr) (r : Z) :
  hp_vec_reply n w = memalign_ok p -> p <> nullptr ->
  exists v' w',
    hp_vec.init v n (set_os (with_madvise r (os w)) w) = Ret v' w' /\
    hp_vec.ok v' = true /\
    hp_vec.data v' = p /\
    trace w' =
    (trace w ++ [hp_vec_request n;
                 ev_madvise p (wrap64 (sizeof_int * n)) MADV_HUGEPAGE])%list.
Proof.
  intros Hreply Hp.
  cbv [hp_vec.init bind posix_memalign madvise ret].
  cbn [os trace set_os with_madvise posix_memalign_reply].
  fold (hp_vec_reply n w). rewrite Hreply.
  do 2 eexists. split; [reflexivity |].
  unfold hp_vec.ok. cbn [hp_vec.data hp_vec.size snd log trace set_os].
  apply Z.eqb_neq in Hp. rewrite Hp.
  split; [reflexivity |]. split; [reflexivity |].
  rewrite <- app_assoc. reflexivity.
Qed.

Lemma hp_vec_ok_whatever_madvise_witness :
  hp_vec_reply bench_size demo_world = memalign_ok 2097152 /\
  2097152 <> nullptr /\
  exists v' w',
    hp_vec.init hp_vec.default bench_size
      (set_os (with_madvise (-1) (os demo_world)) demo_world) = Ret v' w' /\
    hp_vec.ok v' = true /\
    hp_vec.data v' = 2097152 /\
    trace w' =
    (trace demo_world ++
     [hp_vec_request bench_size;
      ev_madvise 2097152 (wrap64 (sizeof_int * bench_size)) MADV_HUGEPAGE])%list.
Proof.
  split; [reflexivity |]. split; [discriminate |].
  apply (hp_vec_ok_whatever_madvise hp_vec.default bench_size demo_world
           2097152 (-1)).
  - reflexivity.
  - discriminate.
Defined.

(** ** The driver *)

Lemma bind_ret_eq {A B : Type} (m : M A) (k : A -> M B) (w w1 : world) (a : A) :
  m w = Ret a w1 -> bind m k w = k a w1.
Proof. intros Hm. unfold bind. rewrite Hm. reflexivity. Qed.

Lemma allocs_log_now (w : world) :
  filter is_alloc (trace (log ev_now w)) = filter is_alloc (trace w).
Proof.
  cbn [log trace]. rewrite filter_app. cbn [filter is_alloc].
  apply app_nil_r.
Qed.

Lemma releases_log_now (w : world) :
  filter is_release (trace (log ev_now w)) = filter is_release (trace w).
Proof.
  cbn [log trace]. rewrite filter_app. cbn [filter is_release].
  apply app_nil_r.
Qed.

(** With [ok()] false after [init], the driver prints the notice and a
    blank line and returns: this holds for any [T]. *)
Lemma run_bench_sized_failed {T : Type} {B : Buffer T} (size : Z)
    (name : string) (w w1 : world) (v : T) :
  buf_init buf_default size (log ev_now w) = Ret v w1 ->
  buf_ok v = false ->
  run_bench_sized size name w =
  Ret tt (emit "" (emit (name ++ " failed to allocate memory") (log ev_now w1))).
Proof.
  intros Hinit Hok. unfold run_bench_sized.
  rewrite (bind_ret_eq _ _ _ _ _ (ms_ret _ _ _ _ Hinit)).
  cbn [fst snd]. rewrite Hok. reflexivity.
Qed.

Section Driver.

Context {T : Type} {B : Buffer T}.
Context {size_of : T -> Z} {data_of : T -> ptr} {request : Z -> event}.
Hypothesis laws : BufferLaws B size_of data_of request.

(** With [ok()] true, the four phases run and the six lines are printed;
    no further allocation request is made. *)
Lemma run_bench_sized_ok (size : Z) (name : string) (w w1 : world) (v : T) :
  buf_init buf_default size (log ev_now w) = Ret v w1 ->
  buf_ok v = true ->
  exists w' s t_alloc t_touch t_sum t_free,
    run_bench_sized size name w = Ret tt w' /\
    out w' = (out w1 ++ success_report name s t_alloc t_touch t_sum t_free)%list /\
    filter is_alloc (trace w') = filter is_alloc (trace w1).
Proof.
  intros Hinit Hok. unfold run_bench_sized.
  rewrite (bind_ret_eq _ _ _ _ _ (ms_ret _ _ _ _ Hinit)).
  cbn [fst snd]. rewrite Hok. cbn [negb].
  erewrite bind_ret_eq by (apply ms_ret; reflexivity).
  erewrite bind_ret_eq
    by (apply ms_ret; unfold bind; rewrite (law_sum _ _ _ _ laws); reflexivity).
  match goal with
  | |- context [bind (ms (buf_free v)) _ ?W] =>
      destruct (law_free _ _ _ _ laws v (log ev_now W))
        as (wf & Hfree & Hout & Hallocs)
  end.
  rewrite (bind_ret_eq _ _ _ _ _ (ms_ret _ _ _ _ Hfree)).
  do 6 eexists. split; [reflexivity |].
  cbn [out trace log emit set_heap fst snd] in *.
  rewrite Hout. split.
  - unfold success_report. rewrite <- !app_assoc. reflexivity.
  - rewrite filter_app, Hallocs, !filter_app. cbn [filter is_alloc].
    rewrite !app_nil_r. reflexivity.
Qed.

(** Either way the driver returns, having printed one of its two reports
    and made its one allocation request. *)
Lemma run_bench_sized_report (size : Z) (name : string) (w : world) :
  exists w' lines,
    run_bench_sized size name w = Ret tt w' /\
    out w' = (out w ++ lines)%list /\
    bench_report name lines /\
    filter is_alloc (trace w') =
    (filter is_alloc (trace w) ++ [request size])%list.
Proof.
  destruct (law_init _ _ _ _ laws buf_default size (log ev_now w))
    as (v & w1 & Hinit & _ & _ & Hout & Hallocs & _).
  cbn [out log] in Hout. rewrite allocs_log_now in Hallocs.
  destruct (buf_ok v) eqn:Hok.
  - destruct (run_bench_sized_ok size name w w1 v Hinit Hok)
      as (w' & s & ta & tt' & ts & tf & Hrun & Hout' & Hallocs').
    exists w', (success_report name s ta tt' ts tf).
    split; [exact Hrun |]. split; [rewrite Hout', Hout; reflexivity |].
    split; [right; do 5 eexists; reflexivity |].
    rewrite Hallocs', Hallocs. reflexivity.
  - eexists. exists (failure_report name).
    split; [apply (run_bench_sized_failed size name w w1 v Hinit Hok) |].
    split; [| split].
    + cbn [out emit log]. rewrite Hout, <- app_assoc. reflexivity.
    + left. reflexivity.
    + cbn [trace emit]. rewrite allocs_log_now. exact Hallocs.
Qed.

Lemma ms_run_bench (name : string) (w : world) :
  exists t w' lines,
    ms (run_bench name) w = Ret (t, tt) w' /\
    out w' = (out w ++ lines)%list /\
    bench_report name lines /\
    filter is_alloc (trace w') =
    (filter is_alloc (trace w) ++ [request bench_size])%list.
Proof.
  destruct (run_bench_sized_report bench_size name (log ev_now w))
    as (w' & lines & Hrun & Hout & Hrep & Hallocs).
  rewrite allocs_log_now in Hallocs. cbn [out log] in Hout.
  eexists. exists (log ev_now w'), lines.
  split; [apply ms_ret; exact Hrun |].
  split; [exact Hout |]. split; [exact Hrep |].
  rewrite allocs_log_now. exact Hallocs.
Qed.

Lemma failed_run_holds (name : string) (w : world) : failed_run B name w.
Proof.
  unfold failed_run.
  destruct (law_init _ _ _ _ laws buf_default bench_size (log ev_now w))
    as (v & w1 & Hinit & _ & Hheap & Hout & _ & Hrel).
  exists v, w1. split; [exact Hinit |]. intros Hok.
  eexists. split; [apply (run_bench_sized_failed _ name w w1 v Hinit Hok) |].
  cbn [out heap trace emit log] in *.
  split; [| split; [exact Hheap | split; [| reflexivity]]].
  - rewrite Hout, <- app_assoc. reflexivity.
  - rewrite filter_app, Hrel, filter_app. cbn [filter is_release].
    rewrite !app_nil_r. reflexivity.
Qed.

End Driver.

(** C5: for each of the three classes, when [ok()] is false after [init]
    the driver prints the line [<name> failed to allocate memory] and a
    blank line and returns; the heap is untouched, nothing is released, and
    no sum or timing line is printed. *)
Theorem run_bench_failed_init (name : string) (w : world) (sz : Z) :
  failed_run (mmap_vec_buffer sz) name w /\
  failed_run hp_vec_buffer name w /\
  failed_run vec_buffer name w.
Proof.
  split; [| split].
  - apply (failed_run_holds (mmap_vec_laws sz)).
  - apply (failed_run_holds hp_vec_laws).
  - apply (failed_run_holds vec_laws).
Qed.

(** The 1 GiB variant in a world without huge pages. *)
Example run_bench_1gb_refused :
  exists w',
    run_bench (B := mmap_vec_buffer 30) "1gb_hp" starved_world = Ret tt w' /\
    out w' = ["1gb_hp failed to allocate memory"; ""] /\
    trace w' = [ev_now; mmap_vec_request 30 bench_size; ev_now].
Proof.
  eexists. split; [cbv; reflexivity |]. split; reflexivity.
Qed.

(** ** [main] *)

(** C6: [main] always returns 0.  It runs the driver once per variant, in
    the order [hp_vec], [mmap_vec<21>], [mmap_vec<30>], [vec], each run
    starting in the world the previous one left, between two clock reads;
    each run makes its one allocation request and prints its report, either
    the failure notice or the timings.  The four summary lines follow, and
    the time in each is the difference of the two clock readings around that
    variant's run, in whole milliseconds.  After the last reading [main]
    makes no call. *)
Theorem main_runs_all_variants (w : world) :
  exists w' lines_thp lines_2mb lines_1gb lines_malloc
         t_thp t_2mb_hp t_1gb_hp t_malloc,
    main w = Ret 0 w' /\
    out w' =
    (out w ++ lines_thp ++ lines_2mb ++ lines_1gb ++ lines_malloc ++
     summary t_thp t_2mb_hp t_1gb_hp t_malloc)%list /\
    bench_report "thp" lines_thp /\
    bench_report "2mb_hp" lines_2mb /\
    bench_report "1gb_hp" lines_1gb /\
    bench_report "malloc" lines_malloc /\
    filter is_alloc (trace w') =
    (filter is_alloc (trace w) ++
     [hp_vec_request bench_size;
      mmap_vec_request 21 bench_size;
      mmap_vec_request 30 bench_size;
      vec_request bench_size])%list /\
    exists u_thp u_2mb u_1gb u_malloc,
      run_bench (B := hp_vec_buffer) "thp" (log ev_now w) = Ret tt u_thp /\
      out u_thp = (out w ++ lines_thp)%list /\
      t_thp = Z.quot (clock u_thp - clock w) ns_per_ms /\
      run_bench (B := mmap_vec_buffer 21) "2mb_hp"
                (log ev_now (log ev_now u_thp)) = Ret tt u_2mb /\
      out u_2mb = (out u_thp ++ lines_2mb)%list /\
      t_2mb_hp = Z.quot (clock u_2mb - clock (log ev_now u_thp)) ns_per_ms /\
      run_bench (B := mmap_vec_buffer 30) "1gb_hp"
                (log ev_now (log ev_now u_2mb)) = Ret tt u_1gb /\
      out u_1gb = (out u_2mb ++ lines_1gb)%list /\
      t_1gb_hp = Z.quot (clock u_1gb - clock (log ev_now u_2mb)) ns_per_ms /\
      run_bench (B := vec_buffer) "malloc"
                (log ev_now (log ev_now u_1gb)) = Ret tt u_malloc /\
      out u_malloc = (out u_1gb ++ lines_malloc)%list /\
      t_malloc = Z.quot (clock u_malloc - clock (log ev_now u_1gb)) ns_per_ms /\
      trace w' = (trace u_malloc ++ [ev_now])%list /\
      heap w' = heap u_malloc.
Proof.
  destruct (run_bench_sized_report hp_vec_laws bench_size "thp" (log ev_now w))
    as (u1 & l1 & Hrun1 & Hout1 & Hrep1 & Hal1).
  destruct (run_bench_sized_report (mmap_vec_laws 21) bench_size "2mb_hp"
              (log ev_now (log ev_now u1)))
    as (u2 & l2 & Hrun2 & Hout2 & Hrep2 & Hal2).
  destruct (run_bench_sized_report (mmap_vec_laws 30) bench_size "1gb_hp"
              (log ev_now (log ev_now u2)))
    as (u3 & l3 & Hrun3 & Hout3 & Hrep3 & Hal3).
  destruct (run_bench_sized_report vec_laws bench_size "malloc"
              (log ev_now (log ev_now u3)))
    as (u4 & l4 & Hrun4 & Hout4 & Hrep4 & Hal4).
  repeat rewrite allocs_log_now in Hal1. repeat rewrite allocs_log_now in Hal2.
  repeat rewrite allocs_log_now in Hal3. repeat rewrite allocs_log_now in Hal4.
  cbn [out log] in Hout1, Hout2, Hout3, Hout4.
  pose proof (ms_ret (run_bench (B := hp_vec_buffer) "thp") _ _ _ Hrun1)
    as Hms1.
  pose proof (ms_ret (run_bench (B := mmap_vec_buffer 21) "2mb_hp") _ _ _ Hrun2)
    as Hms2.
  pose proof (ms_ret (run_bench (B := mmap_vec_buffer 30) "1gb_hp") _ _ _ Hrun3)
    as Hms3.
  pose proof (ms_ret (run_bench (B := vec_buffer) "malloc") _ _ _ Hrun4)
    as Hms4.
  eexists. exists l1, l2, l3, l4. do 4 eexists.
  split.
  - unfold main.
    rewrite (bind_ret_eq _ _ _ _ _ Hms1).
    rewrite (bind_ret_eq _ _ _ _ _ Hms2).
    rewrite (bind_ret_eq _ _ _ _ _ Hms3).
    rewrite (bind_ret_eq _ _ _ _ _ Hms4).
    reflexivity.
  - cbn [out trace heap emit log fst].
    split.
    { rewrite Hout4, Hout3, Hout2, Hout1. unfold summary.
      rewrite <- !app_assoc. reflexivity. }
    split; [exact Hrep1 |]. split; [exact Hrep2 |].
    split; [exact Hrep3 |]. split; [exact Hrep4 |].
    split.
    { rewrite filter_app, Hal4, Hal3, Hal2, Hal1. cbn [filter is_alloc].
      rewrite app_nil_r, <- !app_assoc. reflexivity. }
    exists u1, u2, u3, u4.
    split; [exact Hrun1 |]. split; [exact Hout1 |]. split; [reflexivity |].
    split; [exact Hrun2 |]. split; [exact Hout2 |]. split; [reflexivity |].
    split; [exact Hrun3 |]. split; [exact Hout3 |]. split; [reflexivity |].
    split; [exact Hrun4 |]. split; [exact Hout4 |]. split; [reflexivity |].
    split; reflexivity.
Qed.

(** ** The conditional claims at concrete inputs *)

Lemma vec_sum_1024_witness :
  exists v1 w1 w2,
    vec.init vec.default 1024 demo_world = Ret v1 w1 /\
    vec.ok v1 = true /\
    touch v1 1024 w1 = Ret tt w2 /\
    vec.sum v1 w2 = Ret 523776 w2.
Proof.
  destruct (vec_sum_1024 demo_world) as (v1 & w1 & Hinit & Hrest).
  assert (Hok : vec.ok v1 = true).
  { cbv in Hinit. injection Hinit as <- _. reflexivity. }
  destruct (Hrest Hok) as (w2 & Htouch & Hsum).
  exists v1, w1, w2.
  split; [exact Hinit |]. split; [exact Hok |].
  split; [exact Htouch | exact Hsum].
Defined.


Lemma run_bench_failed_init_witness :
  exists w',
    run_bench (B := mmap_vec_buffer 30) "1gb_hp" starved_world = Ret tt w' /\
    out w' = ["1gb_hp failed to allocate memory"; ""] /\
    heap w' = heap starved_world /\
    filter is_release (trace w') = [].
Proof.
  destruct (run_bench_failed_init "1gb_hp" starved_world 30)
    as ((v & w1 & Hinit & Hfail) & _ & _).
  assert (Hok : mmap_vec.ok v = false).
  { cbv in Hinit. injection Hinit as <- _. reflexivity. }
  destruct (Hfail Hok) as (w' & Hrun & Hout & Hheap & Hrel & _).
  exists w'. split; [exact Hrun |]. split; [exact Hout |].
  split; [exact Hheap | exact Hrel].
Defined.

(** The driver run in full on 1024 elements of the heap variant, by
    evaluation: the sum line shows 523776 and the four timings follow. *)
Example run_bench_heap_1024 :
  exists w',
    run_bench_sized (B := vec_buffer) 1024 "malloc" demo_world = Ret tt w' /\
    out w' =
    ["malloc sum: 523776"; "malloc time alloc: 3 ms";
     "malloc time touch: 1 ms"; "malloc time sum: 1 ms";
     "malloc time free: 3 ms"; ""] /\
    trace w' =
    [ev_now; ev_malloc 4096; ev_now; ev_now; ev_now; ev_now; ev_now;
     ev_now; ev_free 4096; ev_now].
Proof.
  eexists. split; [vm_compute; reflexivity |]. split; reflexivity.
Qed.

(** * Further properties of the code *)

(** ** The two casts *)

(** X1: [static_cast<int>] followed by [static_cast<std::size_t>] keeps the
    low 32 bits of an index, and gives the index back exactly when it is
    below [2^31] or its upper 33 bits are all set. *)
Theorem cast_round_trip (i : Z) :
  0 <= i < 2 ^ 64 ->
  to_size_t (to_int i) mod 2 ^ 32 = i mod 2 ^ 32 /\
  (to_size_t (to_int i) = i <-> i < 2 ^ 31 \/ 2 ^ 64 - 2 ^ 31 <= i).
Proof.
  intros Hi.
  pose proof (Z.div_mod i (2 ^ 32) ltac:(lia)) as Hdm.
  pose proof (Z.mod_pos_bound i (2 ^ 32) ltac:(lia)) as Hr.
  assert (Hq : 0 <= i / 2 ^ 32 < 2 ^ 32).
  { split; [apply Z.div_pos; lia | apply Z.div_lt_upper_bound; lia]. }
  unfold to_int, to_size_t.
  set (q := i / 2 ^ 32) in *. set (r := i mod 2 ^ 32) in *.
  destruct (r <? 2 ^ 31) eqn:E.
  - apply Z.ltb_lt in E.
    rewrite (Z.mod_small r (2 ^ 64)) by lia.
    rewrite (Z.mod_small r (2 ^ 32)) by lia.
    split; [reflexivity | lia].
  - apply Z.ltb_ge in E.
    assert (Hm : (r - 2 ^ 32) mod 2 ^ 64 = r - 2 ^ 32 + 2 ^ 64).
    { symmetry. apply Z.mod_unique with (q := -1); lia. }
    rewrite Hm. split.
    + symmetry. apply Z.mod_unique with (q := 2 ^ 32 - 1); lia.
    + lia.
Qed.

Lemma cast_round_trip_witness :
  0 <= 2 ^ 31 < 2 ^ 64 /\
  to_size_t (to_int (2 ^ 31)) mod 2 ^ 32 = 2 ^ 31 mod 2 ^ 32 /\
  (to_size_t (to_int (2 ^ 31)) = 2 ^ 31 <->
   2 ^ 31 < 2 ^ 31 \/ 2 ^ 64 - 2 ^ 31 <= 2 ^ 31).
Proof.
  split; [lia |]. apply (cast_round_trip (2 ^ 31)). lia.
Defined.

(** ** The flags of the mapping request *)

Lemma flags_low_bits_disjoint (sz : Z) :
  Z.land (sz * 2 ^ 26) 262178 = 0.
Proof.
  apply Z.bits_inj'. intros m Hm.
  rewrite Z.land_spec, Z.bits_0.
  destruct (Z_lt_ge_dec m 26) as [Hlo | Hhi].
  - rewrite Z.mul_pow2_bits_low by exact Hlo. reflexivity.
  - rewrite (Z.bits_above_log2 262178 m) by (cbn; lia).
    apply andb_false_r.
Qed.

(** The shifted class, wrapped to [int], is still a multiple of [2^26]. *)
Lemma shifted_class_wraps (sz : Z) :
  0 <= sz < 64 ->
  exists k,
    to_int (Z.shiftl sz MAP_HUGE_SHIFT) = k * 2 ^ 26 /\
    - 32 <= k < 32 /\
    (sz < 32 -> k = sz) /\ (32 <= sz -> k = sz - 64).
Proof.
  intros Hsz. unfold MAP_HUGE_SHIFT. rewrite Z.shiftl_mul_pow2 by lia.
  destruct (Z_lt_ge_dec sz 32) as [Hlo | Hhi].
  - exists sz.
    rewrite (to_int_quotient (sz * 2 ^ 26) 0 (sz * 2 ^ 26 + 2 ^ 31)) by lia.
    split; [lia |]. split; [lia |]. split; intros; lia.
  - exists (sz - 64).
    rewrite (to_int_quotient (sz * 2 ^ 26) 1 (sz * 2 ^ 26 + 2 ^ 31 - 2 ^ 32))
      by lia.
    split; [lia |]. split; [lia |]. split; intros; lia.
Qed.

Lemma flags_as_sum (sz : Z) :
  mmap_vec.flags sz = 262178 + to_int (Z.shiftl sz MAP_HUGE_SHIFT).
Proof.
  unfold mmap_vec.flags, MAP_HUGETLB, MAP_PRIVATE, MAP_ANONYMOUS.
  set (x := to_int (Z.shiftl sz MAP_HUGE_SHIFT)).
  assert (Hx : exists k, x = k * 2 ^ 26).
  { unfold x, to_int, MAP_HUGE_SHIFT. rewrite Z.shiftl_mul_pow2 by lia.
    pose proof (Z.div_mod (sz * 2 ^ 26) (2 ^ 32) ltac:(lia)) as Hdm.
    set (q := sz * 2 ^ 26 / 2 ^ 32) in *.
    destruct (sz * 2 ^ 26 mod 2 ^ 32 <? 2 ^ 31).
    - exists (sz - 64 * q). lia.
    - exists (sz - 64 * q - 64). lia. }
  destruct Hx as (k & ->).
  rewrite (Z.lor_comm 262144), <- !Z.lor_assoc.
  change (Z.lor 262144 (Z.lor 2 32)) with 262178.
  pose proof (Z.add_lor_land (k * 2 ^ 26) 262178) as H.
  rewrite flags_low_bits_disjoint in H. lia.
Qed.

(** X2: for a page-size class [0 <= sz < 64] the flag word that
    [mmap_vec<sz>::init] passes, computed in [int], is [MAP_HUGETLB |
    MAP_PRIVATE | MAP_ANONYMOUS] with the class in the six bits from bit 26
    up, nothing overlapping: the class and the three flags can both be read
    back.  The word is a non-negative [int] exactly when [sz < 32]; from 32
    on the shift reaches the sign bit and the word is negative. *)
Theorem flags_encode_page_size (sz : Z) :
  0 <= sz < 64 ->
  Z.land (Z.shiftr (mmap_vec.flags sz) MAP_HUGE_SHIFT) 63 = sz /\
  mmap_vec.flags sz mod 2 ^ MAP_HUGE_SHIFT =
  Z.lor (Z.lor MAP_HUGETLB MAP_PRIVATE) MAP_ANONYMOUS /\
  - 2 ^ 31 <= mmap_vec.flags sz < 2 ^ 31 /\
  (0 <= mmap_vec.flags sz <-> sz < 32).
Proof.
  intros Hsz. rewrite flags_as_sum.
  destruct (shifted_class_wraps sz Hsz) as (k & -> & Hk & Hlo & Hhi).
  unfold MAP_HUGE_SHIFT.
  change (Z.lor (Z.lor MAP_HUGETLB MAP_PRIVATE) MAP_ANONYMOUS) with 262178.
  split; [| split; [| split]].
  - rewrite Z.shiftr_div_pow2 by lia.
    replace ((262178 + k * 2 ^ 26) / 2 ^ 26) with k
      by (apply Z.div_unique with (r := 262178); lia).
    change 63 with (Z.ones 6). rewrite Z.land_ones by lia.
    destruct (Z_lt_ge_dec sz 32) as [H | H].
    + rewrite (Hlo H). apply Z.mod_small. lia.
    + rewrite (Hhi ltac:(lia)). symmetry.
      apply Z.mod_unique with (q := -1); lia.
  - symmetry. apply Z.mod_unique with (q := k); lia.
  - lia.
  - destruct (Z_lt_ge_dec sz 32) as [H | H].
    + rewrite (Hlo H). lia.
    + rewrite (Hhi ltac:(lia)). lia.
Qed.

Lemma flags_encode_page_size_witness :
  0 <= 32 < 64 /\
  Z.land (Z.shiftr (mmap_vec.flags 32) MAP_HUGE_SHIFT) 63 = 32 /\
  mmap_vec.flags 32 mod 2 ^ MAP_HUGE_SHIFT =
  Z.lor (Z.lor MAP_HUGETLB MAP_PRIVATE) MAP_ANONYMOUS /\
  - 2 ^ 31 <= mmap_vec.flags 32 < 2 ^ 31 /\
  (0 <= mmap_vec.flags 32 <-> 32 < 32).
Proof.
  split; [lia |]. apply (flags_encode_page_size 32). lia.
Defined.

(** The words of the two instantiations and of the first class that reaches
    the sign bit. *)
Example flags_values :
  mmap_vec.flags 21 = 1409548322 /\
  mmap_vec.flags 30 = 2013528098 /\
  mmap_vec.flags 32 = -2147221470.
Proof. repeat split. Qed.

(** ** The byte count of the allocation request *)

Lemma byte_count_exact (n : Z) :
  0 <= n < 2 ^ 64 ->
  0 <= wrap64 (sizeof_int * n) < 2 ^ 64 /\
  (wrap64 (sizeof_int * n) = sizeof_int * n <-> n < 2 ^ 62).
Proof.
  intros Hn. unfold wrap64, sizeof_int.
  pose proof (Z.mod_pos_bound (4 * n) (2 ^ 64) ltac:(lia)) as Hb.
  split; [exact Hb |]. split.
  - intros Heq. lia.
  - intros Hlt. apply Z.mod_small. lia.
Qed.

(** X3: [init(n)] records [n] as the size and asks the system for
    [sizeof(int) * n] bytes computed in 64 bits: the request is for [4 * n]
    bytes exactly when [n < 2^62], and for fewer above that. *)
Theorem init_byte_count (sz n : Z) (w : world) :
  0 <= n < 2 ^ 64 ->
  exists len,
    len = wrap64 (sizeof_int * n) /\
    0 <= len <= sizeof_int * n /\
    (len = sizeof_int * n <-> n < 2 ^ 62) /\
    (exists v' w',
        mmap_vec.init sz mmap_vec.default n w = Ret v' w' /\
        mmap_vec.size v' = n /\
        trace w' =
        (trace w ++ [ev_mmap nullptr len (Z.lor PROT_READ PROT_WRITE)
                             (mmap_vec.flags sz) (-1) 0])%list) /\
    (exists v' w',
        hp_vec.init hp_vec.default n w = Ret v' w' /\
        hp_vec.size v' = n /\
        trace w' =
        (trace w ++ [ev_posix_memalign 2097152 len;
                     ev_madvise (hp_vec.data v') len MADV_HUGEPAGE])%list) /\
    (exists v' w',
        vec.init vec.default n w = Ret v' w' /\
        vec.size v' = n /\
        trace w' = (trace w ++ [ev_malloc len])%list).
Proof.
  intros Hn. destruct (byte_count_exact n Hn) as (Hrange & Hexact).
  exists (wrap64 (sizeof_int * n)).
  split; [reflexivity |]. split; [| split; [exact Hexact |]].
  - split; [lia |]. unfold wrap64, sizeof_int.
    apply Z.mod_le; lia.
  - split; [| split].
    + do 2 eexists. split; [reflexivity |]. split; reflexivity.
    + cbv [hp_vec.init bind posix_memalign madvise ret].
      do 2 eexists. split; [reflexivity |].
      cbn [hp_vec.size hp_vec.data log trace].
      split; [reflexivity |].
      rewrite <- app_assoc.
      replace (wrap64 (n * sizeof_int)) with (wrap64 (sizeof_int * n))
        by (f_equal; lia).
      reflexivity.
    + do 2 eexists. split; [reflexivity |]. split; reflexivity.
Qed.

Lemma init_byte_count_witness :
  0 <= 2 ^ 62 < 2 ^ 64 /\
  exists v' w',
    vec.init vec.default (2 ^ 62) demo_world = Ret v' w' /\
    vec.size v' = 2 ^ 62 /\
    trace w' = [ev_malloc 0].
Proof.
  split; [lia |].
  destruct (init_byte_count 21 (2 ^ 62) demo_world ltac:(lia))
    as (len & Hlen & _ & _ & _ & _ & (v' & w' & Hinit & Hsize & Htrace)).
  exists v', w'. split; [exact Hinit |]. split; [exact Hsize |].
  rewrite Htrace, Hlen. reflexivity.
Defined.

(** ** [init] and [free] together *)

(** X4: [hp_vec::init] asks for the huge-page advice even when
    [posix_memalign] has refused the block: on a default-constructed buffer
    the advice is then requested for the null pointer, and [init] returns
    with [data] null. *)
Theorem hp_vec_refused_still_advises (n : Z) (w : world) (errnum : Z) :
  hp_vec_reply n w = memalign_err errnum ->
  exists v' w',
    hp_vec.init hp_vec.default n w = Ret v' w' /\
    hp_vec.data v' = nullptr /\
    trace w' =
    (trace w ++ [hp_vec_request n;
                 ev_madvise nullptr (wrap64 (sizeof_int * n)) MADV_HUGEPAGE])%list.
Proof.
  intros Hreply.
  cbv [hp_vec.init bind posix_memalign madvise ret].
  fold (hp_vec_reply n w). rewrite Hreply.
  do 2 eexists. split; [reflexivity |]. split; [reflexivity |].
  cbn [log trace snd hp_vec.data hp_vec.size hp_vec.default].
  rewrite <- app_assoc. reflexivity.
Qed.

Lemma hp_vec_refused_still_advises_witness :
  hp_vec_reply bench_size starved_world = memalign_err 12 /\
  exists v' w',
    hp_vec.init hp_vec.default bench_size starved_world = Ret v' w' /\
    hp_vec.data v' = nullptr /\
    trace w' =
    [ev_posix_memalign 2097152 68719476736;
     ev_madvise 0 68719476736 14].
Proof.
  split; [reflexivity |].
  apply (hp_vec_refused_still_advises bench_size starved_world 12).
  reflexivity.
Defined.

Lemma mmap_vec_steps (sz : Z) :
  BufferSteps (mmap_vec_buffer sz) (mmap_vec_acquire sz) mmap_vec_release.
Proof.
  constructor.
  - intros v n w. eexists. reflexivity.
  - intros v w. reflexivity.
  - reflexivity.
  - reflexivity.
Qed.

Lemma hp_vec_init_eq (v : hp_vec.t) (n : Z) (w : world) :
  hp_vec.init v n w =
  Ret (hp_vec.mk n (hp_vec_data_after v n w))
      (mkWorld (os w) (heap w) (out w) (trace w ++ hp_vec_acquire v n w)).
Proof.
  cbv [hp_vec.init bind posix_memalign madvise ret log].
  cbn [os heap out trace hp_vec.data hp_vec.size].
  unfold hp_vec_acquire, hp_vec_advice, hp_vec_data_after, hp_vec_request,
    hp_vec_reply.
  rewrite <- app_assoc.
  destruct (posix_memalign_reply (os w) (trace w) (Z.shiftl 1 21 * 1)
              (wrap64 (n * sizeof_int))); reflexivity.
Qed.

Lemma hp_vec_steps : BufferSteps hp_vec_buffer hp_vec_acquire hp_vec_release.
Proof.
  constructor.
  - intros v n w. eexists. apply hp_vec_init_eq.
  - intros v w. reflexivity.
  - reflexivity.
  - reflexivity.
Qed.

Lemma vec_steps : BufferSteps vec_buffer vec_acquire vec_release.
Proof.
  constructor.
  - intros v n w. eexists. reflexivity.
  - intros v w. reflexivity.
  - reflexivity.
  - reflexivity.
Qed.

(** X5: [free()] hands back what [init(n)] obtained.  [mmap_vec] unmaps the
    address [mmap] returned with the byte count it had asked for; [hp_vec]
    and [vec] free the pointer the allocator stored or returned.  Neither
    call prints or writes to the heap. *)
Theorem init_then_free (sz n : Z) (w : world) :
  (exists v' w1 w2,
      mmap_vec.init sz mmap_vec.default n w = Ret v' w1 /\
      mmap_vec.free v' w1 = Ret tt w2 /\
      trace w2 =
      (trace w ++ [ev_mmap nullptr (wrap64 (sizeof_int * n))
                           (Z.lor PROT_READ PROT_WRITE) (mmap_vec.flags sz)
                           (-1) 0;
                   ev_munmap (mmap_vec_reply sz n w)
                             (wrap64 (sizeof_int * n))])%list /\
      heap w2 = heap w /\ out w2 = out w) /\
  (exists v' w1 w2,
      hp_vec.init hp_vec.default n w = Ret v' w1 /\
      hp_vec.free v' w1 = Ret tt w2 /\
      trace w2 =
      (trace w ++ [hp_vec_request n;
                   hp_vec_advice (hp_vec_data_after hp_vec.default n w) n;
                   ev_free (hp_vec_data_after hp_vec.default n w)])%list /\
      heap w2 = heap w /\ out w2 = out w) /\
  (exists v' w1 w2,
      vec.init vec.default n w = Ret v' w1 /\
      vec.free v' w1 = Ret tt w2 /\
      trace w2 =
      (trace w ++ [ev_malloc (wrap64 (sizeof_int * n));
                   ev_free (vec_reply n w)])%list /\
      heap w2 = heap w /\ out w2 = out w).
Proof.
  split; [| split].
  - do 3 eexists. split; [reflexivity |]. split; [reflexivity |].
    cbn [log trace heap out mmap_vec.data mmap_vec.size].
    rewrite <- app_assoc. repeat split.
  - do 3 eexists. split; [apply hp_vec_init_eq |]. split; [reflexivity |].
    cbn [log trace heap out hp_vec.data hp_vec_acquire].
    rewrite <- app_assoc. repeat split.
  - do 3 eexists. split; [reflexivity |]. split; [reflexivity |].
    cbn [log trace heap out vec.data vec.size].
    rewrite <- app_assoc. repeat split.
Qed.

(** ** What the loops read and write *)

(** A cell that shares no byte with the block is not written. *)
Lemma touch_loop_frame (n : Z) (base : ptr) (h : Z -> Z) (a : Z) :
  0 <= n < 2 ^ 64 ->
  a + sizeof_int <= base \/ base + sizeof_int * n <= a ->
  for_loop n (touch_body base) h a = h a.
Proof.
  intros Hn Hout.
  apply (for_loop_invariant (fun _ h' => h' a = h a)).
  - exact Hn.
  - reflexivity.
  - intros j h' Hj IH. unfold touch_body, store.
    destruct (a =? base + sizeof_int * j) eqn:E; [| exact IH].
    apply Z.eqb_eq in E. exfalso. unfold sizeof_int in *. lia.
Qed.

Lemma sum_loop_slot_sum (n : Z) (base : ptr) (h : Z -> Z) :
  0 <= n < 2 ^ 64 ->
  for_loop n (sum_body h base) 0 = slot_sum h base (Z.to_nat n) mod 2 ^ 64.
Proof.
  intros Hn.
  apply (for_loop_invariant
           (fun j ans => ans = slot_sum h base (Z.to_nat j) mod 2 ^ 64)).
  - exact Hn.
  - reflexivity.
  - intros j ans Hj ->. unfold sum_body, wrap64, to_size_t.
    replace (Z.to_nat (j + 1)) with (S (Z.to_nat j)) by lia.
    cbn [slot_sum]. rewrite Z2Nat.id by lia.
    symmetry. apply Z.add_mod. lia.
Qed.

(** X6: the touch pass over [n] slots of a buffer at [data] writes inside
    the block only: every [int] cell that shares no byte with
    [data .. data + 4 * n - 1] holds afterwards what it held before, and the
    pass prints nothing and makes no call. *)
Theorem touch_writes_only_slots (sz n : Z) (p : ptr) (w : world) (a : Z) :
  0 <= n < 2 ^ 64 ->
  a + sizeof_int <= p \/ p + sizeof_int * n <= a ->
  (exists w2,
      touch (B := mmap_vec_buffer sz) (mmap_vec.mk n p) n w = Ret tt w2 /\
      heap w2 a = heap w a /\ out w2 = out w /\ trace w2 = trace w) /\
  (exists w2,
      touch (hp_vec.mk n p) n w = Ret tt w2 /\
      heap w2 a = heap w a /\ out w2 = out w /\ trace w2 = trace w) /\
  (exists w2,
      touch (vec.mk n p) n w = Ret tt w2 /\
      heap w2 a = heap w a /\ out w2 = out w /\ trace w2 = trace w).
Proof.
  intros Hn Hout.
  pose proof (touch_loop_frame n p (heap w) a Hn Hout) as Hframe.
  split; [| split]; eexists; (split; [reflexivity |]);
    (split; [exact Hframe | split; reflexivity]).
Qed.

Lemma touch_writes_only_slots_witness :
  0 <= 1024 < 2 ^ 64 /\
  (8192 + sizeof_int <= 4096 \/ 4096 + sizeof_int * 1024 <= 8192) /\
  exists w2,
    touch (vec.mk 1024 4096) 1024 demo_world = Ret tt w2 /\
    heap w2 8192 = heap demo_world 8192 /\
    out w2 = out demo_world /\ trace w2 = trace demo_world.
Proof.
  assert (Hout : 8192 + sizeof_int <= 4096 \/ 4096 + sizeof_int * 1024 <= 8192)
    by (right; unfold sizeof_int; lia).
  split; [lia |]. split; [exact Hout |].
  apply (touch_writes_only_slots 21 1024 4096 demo_world 8192); [lia | exact Hout].
Defined.

(** X7: whatever the heap holds, [sum()] returns the contents of the [size]
    slots added as integers and reduced modulo [2^64]; it reads no other
    address. *)
Theorem sum_adds_slots (n : Z) (p : ptr) (w : world) :
  0 <= n < 2 ^ 64 ->
  mmap_vec.sum (mmap_vec.mk n p) w =
  Ret (slot_sum (heap w) p (Z.to_nat n) mod 2 ^ 64) w /\
  hp_vec.sum (hp_vec.mk n p) w =
  Ret (slot_sum (heap w) p (Z.to_nat n) mod 2 ^ 64) w /\
  vec.sum (vec.mk n p) w =
  Ret (slot_sum (heap w) p (Z.to_nat n) mod 2 ^ 64) w.
Proof.
  intros Hn.
  pose proof (sum_loop_slot_sum n p (heap w) Hn) as Hsum.
  split; [| split].
  - unfold mmap_vec.sum. cbn [mmap_vec.size]. f_equal. exact Hsum.
  - unfold hp_vec.sum. cbn [hp_vec.size]. f_equal. exact Hsum.
  - unfold vec.sum. cbn [vec.size]. f_equal. exact Hsum.
Qed.

Lemma sum_adds_slots_witness :
  0 <= 3 < 2 ^ 64 /\
  vec.sum (vec.mk 3 4096)
          (set_heap (fun a => if a =? 4100 then -1 else 7) demo_world) =
  Ret 13 (set_heap (fun a => if a =? 4100 then -1 else 7) demo_world).
Proof.
  split; [lia |].
  apply (sum_adds_slots 3 4096
           (set_heap (fun a => if a =? 4100 then -1 else 7) demo_world)).
  lia.
Defined.

(** ** Other schedules of the parallel loops *)

Lemma reduction_heap_ext (h h' : Z -> Z) (base : ptr) (order : list Z) :
  (forall a, h a = h' a) ->
  forall ans,
    run_in_order order (sum_body h base) ans =
    run_in_order order (sum_body h' base) ans.
Proof.
  intros Heq. unfold run_in_order.
  induction order as [| i order IH]; intros ans; [reflexivity |].
  cbn [fold_left]. unfold sum_body at 2 4, load. rewrite Heq. apply IH.
Qed.

Lemma run_in_order_app {St : Type} (order order' : list Z)
    (body : Z -> St -> St) (s : St) :
  run_in_order (order ++ order') body s =
  run_in_order order' body (run_in_order order body s).
Proof. unfold run_in_order. apply fold_left_app. Qed.

Lemma reduce_chunks_from (h : Z -> Z) (base : ptr) (chunks : list (list Z)) :
  forall total, 0 <= total < 2 ^ 64 ->
    fold_left
      (fun total chunk => wrap64 (total + run_in_order chunk (sum_body h base) 0))
      chunks total =
    run_in_order (List.concat chunks) (sum_body h base) total.
Proof.
  induction chunks as [| chunk chunks IH]; intros total Ht; [reflexivity |].
  cbn [fold_left List.concat].
  rewrite IH by (unfold wrap64; apply Z.mod_pos_bound; lia).
  rewrite run_in_order_app.
  rewrite (reduction_from h base chunk total Ht). reflexivity.
Qed.

(** X8: the touch loop may run its iterations in any order: whatever
    permutation of [0 .. n-1] is executed, every address holds at the end
    what the in-order loop leaves there. *)
Theorem parallel_touch (n : Z) (base : ptr) (h : Z -> Z) (order : list Z) :
  0 <= n < 2 ^ 64 ->
  Permutation (indices n) order ->
  forall a,
    run_in_order order (touch_body base) h a = for_loop n (touch_body base) h a.
Proof.
  intros Hn Hp a. rewrite for_loop_in_order by exact Hn.
  symmetry. apply touch_permutation. exact Hp.
Qed.

Lemma parallel_touch_witness :
  0 <= 3 < 2 ^ 64 /\
  Permutation (indices 3) [2; 0; 1] /\
  forall a,
    run_in_order [2; 0; 1] (touch_body 4096) (fun _ => 0) a =
    for_loop 3 (touch_body 4096) (fun _ => 0) a.
Proof.
  assert (Hp : Permutation (indices 3) [2; 0; 1]).
  { change (indices 3) with [0; 1; 2].
    apply (perm_trans (l' := [0; 2; 1]));
      [apply perm_skip, perm_swap | apply perm_swap]. }
  split; [lia |]. split; [exact Hp |].
  apply (parallel_touch 3 4096 (fun _ => 0) [2; 0; 1]); [lia | exact Hp].
Defined.

(** X9: the reduction may be split over any number of threads in any way:
    if the chunks together hold each index below [size] once, adding each
    chunk into a private accumulator from 0 and adding the accumulators up
    modulo [2^64] gives what the in-order loop gives. *)
Theorem parallel_reduction (n : Z) (base : ptr) (h : Z -> Z)
    (chunks : list (list Z)) :
  0 <= n < 2 ^ 64 ->
  Permutation (indices n) (List.concat chunks) ->
  reduce_chunks h base chunks = for_loop n (sum_body h base) 0.
Proof.
  intros Hn Hp. unfold reduce_chunks.
  rewrite reduce_chunks_from by lia.
  rewrite for_loop_in_order by exact Hn.
  symmetry. apply reduction_permutation. exact Hp.
Qed.

Lemma parallel_reduction_witness :
  0 <= 3 < 2 ^ 64 /\
  Permutation (indices 3) (List.concat [[2]; []; [0; 1]]) /\
  reduce_chunks (fun a => a) 4096 [[2]; []; [0; 1]] =
  for_loop 3 (sum_body (fun a => a) 4096) 0.
Proof.
  assert (Hp : Permutation (indices 3) (List.concat [[2]; []; [0; 1]])).
  { change (indices 3) with [0; 1; 2].
    change (List.concat [[2]; []; [0; 1]]) with [2; 0; 1].
    apply (perm_trans (l' := [0; 2; 1]));
      [apply perm_skip, perm_swap | apply perm_swap]. }
  split; [lia |]. split; [exact Hp |].
  apply (parallel_reduction 3 4096 (fun a => a) [[2]; []; [0; 1]]);
    [lia | exact Hp].
Defined.

(** ** A run of the driver in which [init] succeeds *)

(** [clock_le] orders two readings of a monotone clock, the trace of the
    second extending the trace of the first. *)
Ltac clock_le Hmono :=
  first [ apply Z.le_refl
        | apply Hmono
        | etransitivity; [| apply Hmono]; clock_le Hmono ].

Lemma quot_nonneg (a : Z) : 0 <= a -> 0 <= Z.quot a ns_per_ms.
Proof.
  intros Ha. destruct (quot_truncates a) as (_ & Hpos & _). exact (Hpos Ha).
Qed.

Lemma quot_phases_le (a b c d total : Z) :
  0 <= a -> 0 <= b -> 0 <= c -> 0 <= d -> a + b + c + d <= total ->
  Z.quot a ns_per_ms + Z.quot b ns_per_ms + Z.quot c ns_per_ms
  + Z.quot d ns_per_ms <= Z.quot total ns_per_ms.
Proof.
  intros Ha Hb Hc Hd Hsum. unfold ns_per_ms.
  pose proof (Z.quot_rem' a 1000000). pose proof (Z.rem_bound_pos a 1000000).
  pose proof (Z.quot_rem' b 1000000). pose proof (Z.rem_bound_pos b 1000000).
  pose proof (Z.quot_rem' c 1000000). pose proof (Z.rem_bound_pos c 1000000).
  pose proof (Z.quot_rem' d 1000000). pose proof (Z.rem_bound_pos d 1000000).
  pose proof (Z.quot_rem' total 1000000).
  pose proof (Z.rem_bound_pos total 1000000).
  lia.
Qed.

Section Phases.

Context {T : Type} {B : Buffer T}.
Context {size_of : T -> Z} {data_of : T -> ptr} {request : Z -> event}.
Context {acquire : T -> Z -> world -> list event} {release : T -> event}.
Hypothesis laws : BufferLaws B size_of data_of request.
Hypothesis steps : BufferSteps B acquire release.

Lemma sum_of_touched (v : T) (n : Z) (h : Z -> Z) :
  0 <= n < 2 ^ 64 -> size_of v = n ->
  for_loop (size_of v)
    (fun i ans =>
       wrap64 (ans + to_size_t
         (load (for_loop n (fun i h' => store h' (buf_index v i) (to_int i)) h)
               (buf_index v i))))
    0
  = post_touch_sum n.
Proof.
  intros Hn Hsize.
  destruct (touch_then_sum laws v n (mkWorld demo_env h [] []) Hn Hsize)
    as (w2 & Htouch & Hsum & _).
  unfold touch in Htouch. injection Htouch as <-.
  rewrite (law_sum _ _ _ _ laws) in Hsum. injection Hsum as Hsum.
  exact Hsum.
Qed.

Lemma init_size (v0 v : T) (n : Z) (w w1 : world) :
  buf_init v0 n w = Ret v w1 -> size_of v = n.
Proof.
  intros Hinit.
  destruct (law_init _ _ _ _ laws v0 n w) as (v' & w' & Hinit' & Hsize & _).
  rewrite Hinit in Hinit'. injection Hinit' as <- _. exact Hsize.
Qed.

Lemma run_bench_sized_success (size : Z) (name : string) (w : world) (v : T) :
  0 <= size < 2 ^ 64 ->
  buf_init buf_default size (log ev_now w) =
  Ret v (mkWorld (os w) (heap w) (out w)
           ((trace w ++ [ev_now]) ++ acquire buf_default size (log ev_now w))) ->
  buf_ok v = true ->
  exists w' c1 c2 c3 c4 c5 c6 c7,
    run_bench_sized size name w = Ret tt w' /\
    os w' = os w /\
    trace w' =
    (trace w ++
     phases_trace (acquire buf_default size (log ev_now w)) (release v))%list /\
    out w' =
    (out w ++
     success_report name (post_touch_sum size)
       (Z.quot (c1 - clock w) ns_per_ms) (Z.quot (c3 - c2) ns_per_ms)
       (Z.quot (c5 - c4) ns_per_ms) (Z.quot (c7 - c6) ns_per_ms))%list /\
    (forall i, 0 <= i < size -> load (heap w') (buf_index v i) = to_int i) /\
    (forall a,
       a + sizeof_int <= data_of v \/ data_of v + sizeof_int * size <= a ->
       heap w' a = heap w a) /\
    (clock_monotone (os w) ->
     clock w <= c1 /\ c1 <= c2 /\ c2 <= c3 /\ c3 <= c4 /\ c4 <= c5 /\
     c5 <= c6 /\ c6 <= c7 /\ c7 <= clock w').
Proof.
  intros Hsize Hinit Hok.
  pose proof (init_size _ _ _ _ _ Hinit) as Hsz.
  pose proof (sum_of_touched v size (heap w) Hsize Hsz) as Hsum.
  destruct (touch_then_sum laws v size w Hsize Hsz)
    as (w2 & Htouch & _ & _ & _ & Hslots).
  unfold touch in Htouch. injection Htouch as <-. cbn [heap set_heap] in Hslots.
  unfold run_bench_sized.
  rewrite (bind_ret_eq _ _ _ _ _ (ms_ret _ _ _ _ Hinit)).
  cbn [fst snd]. rewrite Hok. cbn [negb].
  erewrite bind_ret_eq by (apply ms_ret; reflexivity).
  erewrite bind_ret_eq
    by (apply ms_ret; unfold bind; rewrite (law_sum _ _ _ _ laws); reflexivity).
  erewrite bind_ret_eq
    by (apply ms_ret; rewrite (step_free _ _ _ steps); reflexivity).
  do 8 eexists. split; [reflexivity |].
  unfold clock. cbn [os heap out trace log emit set_heap fst snd].
  rewrite Hsum.
  split; [reflexivity |].
  split; [| split; [| split; [exact Hslots | split]]].
  - unfold phases_trace. rewrite <- !app_assoc. reflexivity.
  - unfold success_report. rewrite <- !app_assoc. reflexivity.
  - intros a Hout.
    apply (for_loop_invariant (fun _ h' => h' a = heap w a)).
    + exact Hsize.
    + reflexivity.
    + intros j h' Hj IH. unfold store.
      destruct (a =? buf_index v j) eqn:E; [| exact IH].
      apply Z.eqb_eq in E. rewrite (law_index _ _ _ _ laws) in E.
      exfalso. unfold sizeof_int in *. lia.
  - intros Hmono. rewrite !app_assoc. repeat split; clock_le Hmono.
Qed.

End Phases.

Section Accounting.

Context {T : Type} {B : Buffer T}.
Context {size_of : T -> Z} {data_of : T -> ptr} {request : Z -> event}.
Context {acquire : T -> Z -> world -> list event} {release : T -> event}.
Hypothesis laws : BufferLaws B size_of data_of request.
Hypothesis steps : BufferSteps B acquire release.

Lemma releases_of_phases (acq : list event) (rel : event) :
  filter is_release acq = [] -> is_release rel = true ->
  filter is_release (phases_trace acq rel) = [rel].
Proof.
  intros Hacq Hrel. unfold phases_trace.
  rewrite !filter_app, Hacq. cbn [filter is_release app]. rewrite Hrel.
  reflexivity.
Qed.

(** One timed run of the driver, [v] being the buffer [init] leaves: the
    time around it covers the phase times when the clock is monotone, and
    the release of [v] is made exactly when [ok()] holds, in which case the
    timings are printed. *)
Lemma ms_run_bench_accounted (name : string) (w : world) (v : T) :
  buf_init buf_default bench_size (log ev_now (log ev_now w)) =
  Ret v (mkWorld (os w) (heap w) (out w)
           (((trace w ++ [ev_now]) ++ [ev_now]) ++
            acquire buf_default bench_size (log ev_now (log ev_now w)))) ->
  exists t w' lines releases,
    ms (run_bench name) w = Ret (t, tt) w' /\
    os w' = os w /\
    (exists evs, trace w' = (trace w ++ evs)%list) /\
    out w' = (out w ++ lines)%list /\
    released_report name lines releases (buf_ok v) (release v) /\
    filter is_release (trace w') =
    (filter is_release (trace w) ++ releases)%list /\
    (clock_monotone (os w) -> timed_report name lines t).
Proof.
  intros Hinit.
  destruct (buf_ok v) eqn:Hok.
  - destruct (run_bench_sized_success laws steps bench_size name (log ev_now w) v
                ltac:(unfold bench_size; lia) Hinit Hok)
      as (w' & c1 & c2 & c3 & c4 & c5 & c6 & c7
          & Hrun & Hos & Htrace & Hout & _ & _ & Hclock).
    do 2 eexists. exists (success_report name (post_touch_sum bench_size)
      (Z.quot (c1 - clock (log ev_now w)) ns_per_ms)
      (Z.quot (c3 - c2) ns_per_ms) (Z.quot (c5 - c4) ns_per_ms)
      (Z.quot (c7 - c6) ns_per_ms)), [release v].
    split; [apply ms_ret; exact Hrun |].
    cbn [os trace out log] in *.
    split; [exact Hos |]. split; [| split; [exact Hout | split; [| split]]].
    + eexists. rewrite Htrace, <- !app_assoc. reflexivity.
    + split; [do 5 eexists |]; reflexivity.
    + rewrite Htrace, !filter_app.
      rewrite (releases_of_phases _ _ (step_acquire _ _ _ steps _ _ _)
                 (step_release _ _ _ steps v)).
      cbn [filter is_release]. rewrite !app_nil_r. reflexivity.
    + intros Hmono. specialize (Hclock Hmono).
      assert (Hstart : clock_reply (os w) (trace w) <= clock (log ev_now w))
        by (unfold clock; cbn [os trace log]; apply Hmono).
      unfold clock in Hclock at 2. rewrite Hos in Hclock.
      unfold timed_report. rewrite Hos.
      split; [apply quot_nonneg; lia |].
      right. do 5 eexists. split; [reflexivity |].
      repeat (split; [apply quot_nonneg; lia |]).
      apply quot_phases_le; lia.
  - pose proof (run_bench_sized_failed bench_size name (log ev_now w) _ v Hinit Hok)
      as Hrun.
    do 2 eexists. exists (failure_report name), [].
    split; [apply ms_ret; exact Hrun |].
    cbn [os trace out log emit].
    split; [reflexivity |]. split; [| split; [| split; [| split]]].
    + eexists. rewrite <- !app_assoc. reflexivity.
    + rewrite <- app_assoc. reflexivity.
    + split; reflexivity.
    + rewrite !filter_app, (step_acquire _ _ _ steps).
      cbn [filter is_release]. rewrite !app_nil_r. reflexivity.
    + intros Hmono. split; [| left; reflexivity].
      apply quot_nonneg.
      match goal with
      | |- 0 <= ?later - ?earlier =>
          assert (earlier <= later) by clock_le Hmono; lia
      end.
Qed.

End Accounting.

Lemma successful_run_holds {T : Type} {B : Buffer T}
    {size_of : T -> Z} {data_of : T -> ptr} {request : Z -> event}
    {acquire : T -> Z -> world -> list event} {release : T -> event}
    (laws : BufferLaws B size_of data_of request)
    (steps : BufferSteps B acquire release)
    (name : string) (w : world) (v : T) :
  buf_init buf_default bench_size (log ev_now w) =
  Ret v (mkWorld (os w) (heap w) (out w)
           ((trace w ++ [ev_now]) ++
            acquire buf_default bench_size (log ev_now w))) ->
  buf_ok v = true ->
  successful_run B name w (acquire buf_default bench_size (log ev_now w))
                 (release v) (data_of v).
Proof.
  intros Hinit Hok.
  destruct (run_bench_sized_success laws steps bench_size name w v
              ltac:(unfold bench_size; lia) Hinit Hok)
    as (w' & c1 & c2 & c3 & c4 & c5 & c6 & c7
        & Hrun & _ & Htrace & Hout & Hslots & Hframe & _).
  unfold successful_run. exists w'. do 4 eexists.
  split; [exact Hrun |].
  split; [rewrite Hout, post_touch_sum_bench_size; reflexivity |].
  split; [exact Htrace |]. split.
  - intros i Hi. rewrite <- (law_index _ _ _ _ laws). apply Hslots. exact Hi.
  - intros a Hout'. apply Hframe. exact Hout'.
Qed.

(** X10: when the allocator grants the block, [run_bench] runs its four
    phases in order.  Its calls are: a clock read, the allocation request,
    six clock reads (the end of the allocation phase, the start and end of
    the touch phase and of the sum phase, which make no call, and the start
    of the release phase), the release of the granted block, and a last
    clock read.  Nothing is written outside the block.  The sum line shows 18446744065119617024 ([2^64 - 2^33]) for each
    of the three classes. *)
Theorem run_bench_success (name : string) (w : world) (sz : Z) :
  (mmap_vec_reply sz bench_size (log ev_now w) <> MAP_FAILED ->
   successful_run (mmap_vec_buffer sz) name w
     [mmap_vec_request sz bench_size]
     (ev_munmap (mmap_vec_reply sz bench_size (log ev_now w))
                (wrap64 (sizeof_int * bench_size)))
     (mmap_vec_reply sz bench_size (log ev_now w))) /\
  (forall p,
      hp_vec_reply bench_size (log ev_now w) = memalign_ok p ->
      p <> nullptr ->
      successful_run hp_vec_buffer name w
        [hp_vec_request bench_size; hp_vec_advice p bench_size]
        (ev_free p) p) /\
  (vec_reply bench_size (log ev_now w) <> nullptr ->
   successful_run vec_buffer name w
     [vec_request bench_size]
     (ev_free (vec_reply bench_size (log ev_now w)))
     (vec_reply bench_size (log ev_now w))).
Proof.
  split; [| split].
  - intros Hreply.
    apply (successful_run_holds (mmap_vec_laws sz) (mmap_vec_steps sz) name w
             (mmap_vec.mk bench_size
                (mmap_vec_reply sz bench_size (log ev_now w)))).
    + reflexivity.
    + apply Z.eqb_neq in Hreply. cbn [buf_ok mmap_vec_buffer].
      unfold mmap_vec.ok. cbn [mmap_vec.data]. rewrite Hreply. reflexivity.
  - intros p Hreply Hp.
    pose proof (successful_run_holds hp_vec_laws hp_vec_steps name w
                  (hp_vec.mk bench_size p)) as H.
    unfold hp_vec_acquire, hp_vec_data_after in H. rewrite Hreply in H.
    apply H.
    + change (buf_init buf_default bench_size (log ev_now w))
        with (hp_vec.init hp_vec.default bench_size (log ev_now w)).
      rewrite hp_vec_init_eq.
      unfold hp_vec_acquire, hp_vec_data_after. rewrite Hreply. reflexivity.
    + apply Z.eqb_neq in Hp. cbn [buf_ok hp_vec_buffer].
      unfold hp_vec.ok. cbn [hp_vec.data]. rewrite Hp. reflexivity.
  - intros Hreply.
    apply (successful_run_holds vec_laws vec_steps name w
             (vec.mk bench_size (vec_reply bench_size (log ev_now w)))).
    + reflexivity.
    + apply Z.eqb_neq in Hreply. cbn [buf_ok vec_buffer].
      unfold vec.ok. cbn [vec.data]. rewrite Hreply. reflexivity.
Qed.

Lemma run_bench_success_witness :
  successful_run (mmap_vec_buffer 21) "2mb_hp" demo_world
    [mmap_vec_request 21 bench_size]
    (ev_munmap 1073741824 68719476736) 1073741824 /\
  successful_run hp_vec_buffer "thp" demo_world
    [hp_vec_request bench_size; hp_vec_advice 2097152 bench_size]
    (ev_free 2097152) 2097152 /\
  successful_run vec_buffer "malloc" demo_world
    [vec_request bench_size] (ev_free 4096) 4096.
Proof.
  split; [| split].
  - apply (run_bench_success "2mb_hp" demo_world 21). discriminate.
  - apply (run_bench_success "thp" demo_world 21); [reflexivity | discriminate].
  - apply (run_bench_success "malloc" demo_world 21). discriminate.
Defined.

(** ** [main]: times and releases *)

Lemma main_accounted (w : world) :
  exists w1 w2 w3 w' l_thp l_2mb l_1gb l_malloc
         t_thp t_2mb_hp t_1gb_hp t_malloc r_thp r_2mb r_1gb r_malloc,
    (ms (run_bench (B := hp_vec_buffer) "thp") w = Ret (t_thp, tt) w1 /\
     ms (run_bench (B := mmap_vec_buffer 21) "2mb_hp") w1
     = Ret (t_2mb_hp, tt) w2 /\
     ms (run_bench (B := mmap_vec_buffer 30) "1gb_hp") w2
     = Ret (t_1gb_hp, tt) w3) /\
    main w = Ret 0 w' /\
    out w' =
    (out w ++ l_thp ++ l_2mb ++ l_1gb ++ l_malloc ++
     summary t_thp t_2mb_hp t_1gb_hp t_malloc)%list /\
    (released_report "thp" l_thp r_thp
       (negb (granted_thp w =? nullptr)) (ev_free (granted_thp w)) /\
     released_report "2mb_hp" l_2mb r_2mb
       (negb (granted_huge 21 w1 =? MAP_FAILED))
       (ev_munmap (granted_huge 21 w1) (wrap64 (sizeof_int * bench_size))) /\
     released_report "1gb_hp" l_1gb r_1gb
       (negb (granted_huge 30 w2 =? MAP_FAILED))
       (ev_munmap (granted_huge 30 w2) (wrap64 (sizeof_int * bench_size))) /\
     released_report "malloc" l_malloc r_malloc
       (negb (granted_malloc w3 =? nullptr)) (ev_free (granted_malloc w3))) /\
    filter is_release (trace w') =
    (filter is_release (trace w) ++ r_thp ++ r_2mb ++ r_1gb ++ r_malloc)%list /\
    (clock_monotone (os w) ->
     timed_report "thp" l_thp t_thp /\
     timed_report "2mb_hp" l_2mb t_2mb_hp /\
     timed_report "1gb_hp" l_1gb t_1gb_hp /\
     timed_report "malloc" l_malloc t_malloc).
Proof.
  destruct (ms_run_bench_accounted hp_vec_laws hp_vec_steps "thp" w
              (hp_vec.mk bench_size (granted_thp w))
              (hp_vec_init_eq _ _ _))
    as (t1 & w1 & l1 & r1 & Hrun1 & Hos1 & _ & Hout1 & Hrep1 & Hrel1 & Ht1).
  destruct (ms_run_bench_accounted (mmap_vec_laws 21) (mmap_vec_steps 21)
              "2mb_hp" w1 (mmap_vec.mk bench_size (granted_huge 21 w1))
              eq_refl)
    as (t2 & w2 & l2 & r2 & Hrun2 & Hos2 & _ & Hout2 & Hrep2 & Hrel2 & Ht2).
  destruct (ms_run_bench_accounted (mmap_vec_laws 30) (mmap_vec_steps 30)
              "1gb_hp" w2 (mmap_vec.mk bench_size (granted_huge 30 w2))
              eq_refl)
    as (t3 & w3 & l3 & r3 & Hrun3 & Hos3 & _ & Hout3 & Hrep3 & Hrel3 & Ht3).
  destruct (ms_run_bench_accounted vec_laws vec_steps "malloc" w3
              (vec.mk bench_size (granted_malloc w3)) eq_refl)
    as (t4 & w4 & l4 & r4 & Hrun4 & Hos4 & _ & Hout4 & Hrep4 & Hrel4 & Ht4).
  rewrite Hos3, Hos2, Hos1 in Ht4. rewrite Hos2, Hos1 in Ht3.
  rewrite Hos1 in Ht2.
  exists w1, w2, w3. eexists.
  exists l1, l2, l3, l4, t1, t2, t3, t4, r1, r2, r3, r4.
  split; [split; [exact Hrun1 | split; [exact Hrun2 | exact Hrun3]] |].
  split.
  - unfold main.
    rewrite (bind_ret_eq _ _ _ _ _ Hrun1).
    rewrite (bind_ret_eq _ _ _ _ _ Hrun2).
    rewrite (bind_ret_eq _ _ _ _ _ Hrun3).
    rewrite (bind_ret_eq _ _ _ _ _ Hrun4).
    reflexivity.
  - cbn [out trace emit fst].
    rewrite Hout4, Hout3, Hout2, Hout1, Hrel4, Hrel3, Hrel2, Hrel1.
    unfold summary. rewrite <- !app_assoc.
    split; [reflexivity |].
    split; [split; [exact Hrep1 | split; [exact Hrep2 |
            split; [exact Hrep3 | exact Hrep4]]] |].
    split; [reflexivity |].
    intros Hmono.
    split; [exact (Ht1 Hmono) |]. split; [exact (Ht2 Hmono) |].
    split; [exact (Ht3 Hmono) | exact (Ht4 Hmono)].
Qed.

Lemma demo_clock_monotone : clock_monotone (os demo_world).
Proof.
  intros tr tr'. cbn [os demo_world demo_env clock_reply].
  rewrite length_app. lia.
Qed.

(** X11: with a clock that does not run backwards, every time [main]
    prints is non-negative, and the time in each summary line is at least
    the sum of the four phase times printed in that variant's report. *)
Theorem main_times_cover_phases (w : world) :
  clock_monotone (os w) ->
  exists w' l_thp l_2mb l_1gb l_malloc t_thp t_2mb_hp t_1gb_hp t_malloc,
    main w = Ret 0 w' /\
    out w' =
    (out w ++ l_thp ++ l_2mb ++ l_1gb ++ l_malloc ++
     summary t_thp t_2mb_hp t_1gb_hp t_malloc)%list /\
    timed_report "thp" l_thp t_thp /\
    timed_report "2mb_hp" l_2mb t_2mb_hp /\
    timed_report "1gb_hp" l_1gb t_1gb_hp /\
    timed_report "malloc" l_malloc t_malloc.
Proof.
  intros Hmono.
  destruct (main_accounted w)
    as (w1 & w2 & w3 & w' & l1 & l2 & l3 & l4 & t1 & t2 & t3 & t4
        & r1 & r2 & r3 & r4 & _ & Hmain & Hout & _ & _ & Htimes).
  exists w', l1, l2, l3, l4, t1, t2, t3, t4.
  split; [exact Hmain |]. split; [exact Hout |]. exact (Htimes Hmono).
Qed.

Lemma main_times_cover_phases_witness :
  clock_monotone (os demo_world) /\
  exists w' l_thp l_2mb l_1gb l_malloc t_thp t_2mb_hp t_1gb_hp t_malloc,
    main demo_world = Ret 0 w' /\
    out w' =
    (out demo_world ++ l_thp ++ l_2mb ++ l_1gb ++ l_malloc ++
     summary t_thp t_2mb_hp t_1gb_hp t_malloc)%list /\
    timed_report "thp" l_thp t_thp /\
    timed_report "2mb_hp" l_2mb t_2mb_hp /\
    timed_report "1gb_hp" l_1gb t_1gb_hp /\
    timed_report "malloc" l_malloc t_malloc.
Proof.
  split; [exact demo_clock_monotone |].
  apply (main_times_cover_phases demo_world). exact demo_clock_monotone.
Defined.

(** With a clock that runs backwards the time returned is negative. *)
Example ms_backward_clock :
  ms (println "work") (mkWorld backward_env (fun _ => 0) [] []) =
  Ret (-1, tt) (mkWorld backward_env (fun _ => 0) ["work"] [ev_now; ev_now]).
Proof. reflexivity. Qed.

(** X12: [main] releases exactly the buffers it obtained.  For each
    variant, with [w1], [w2], [w3] the worlds the timed runs of the first
    three variants leave: when the allocator granted the block, the report
    shows the timings and the run made one release, [free] of the pointer
    [posix_memalign] stored or [malloc] returned, or [munmap] of the address
    [mmap] returned with the byte count requested; when it refused, the
    report is the failure notice and the run made no release.  [main] issues
    no other [munmap] or [free]. *)
Theorem main_releases_what_it_got (w : world) :
  exists w1 w2 w3 w' l_thp l_2mb l_1gb l_malloc
         t_thp t_2mb_hp t_1gb_hp t_malloc r_thp r_2mb r_1gb r_malloc,
    (ms (run_bench (B := hp_vec_buffer) "thp") w = Ret (t_thp, tt) w1 /\
     ms (run_bench (B := mmap_vec_buffer 21) "2mb_hp") w1
     = Ret (t_2mb_hp, tt) w2 /\
     ms (run_bench (B := mmap_vec_buffer 30) "1gb_hp") w2
     = Ret (t_1gb_hp, tt) w3) /\
    main w = Ret 0 w' /\
    out w' =
    (out w ++ l_thp ++ l_2mb ++ l_1gb ++ l_malloc ++
     summary t_thp t_2mb_hp t_1gb_hp t_malloc)%list /\
    released_report "thp" l_thp r_thp
      (negb (granted_thp w =? nullptr)) (ev_free (granted_thp w)) /\
    released_report "2mb_hp" l_2mb r_2mb
      (negb (granted_huge 21 w1 =? MAP_FAILED))
      (ev_munmap (granted_huge 21 w1) (wrap64 (sizeof_int * bench_size))) /\
    released_report "1gb_hp" l_1gb r_1gb
      (negb (granted_huge 30 w2 =? MAP_FAILED))
      (ev_munmap (granted_huge 30 w2) (wrap64 (sizeof_int * bench_size))) /\
    released_report "malloc" l_malloc r_malloc
      (negb (granted_malloc w3 =? nullptr)) (ev_free (granted_malloc w3)) /\
    filter is_release (trace w') =
    (filter is_release (trace w) ++ r_thp ++ r_2mb ++ r_1gb ++ r_malloc)%list.
Proof.
  destruct (main_accounted w)
    as (w1 & w2 & w3 & w' & l1 & l2 & l3 & l4 & t1 & t2 & t3 & t4
        & r1 & r2 & r3 & r4 & Hruns & Hmain & Hout & (H1 & H2 & H3 & H4)
        & Hrel & _).
  exists w1, w2, w3, w', l1, l2, l3, l4, t1, t2, t3, t4, r1, r2, r3, r4.
  repeat (split; [assumption |]). exact Hrel.
Qed.

(** ** The sum after the touch pass, for any size *)

(** X13: for every [n : std::size_t], writing [n + 2^31 = 2^32 * q + r] with
    [0 <= r < 2^32], the value [sum()] returns after the touch pass over [n]
    slots is [n*(n-1)/2 - 2^32 * (2^32 * q*(q-1)/2 + q*r)] modulo [2^64], for
    each of the three classes. *)
Theorem sum_after_touch_closed_form (n : Z) (w : world) (sz : Z) :
  0 <= n < 2 ^ 64 ->
  let q := (n + 2 ^ 31) / 2 ^ 32 in
  let r := (n + 2 ^ 31) mod 2 ^ 32 in
  let total := (triangular n - 2 ^ 32 * (2 ^ 32 * triangular q + q * r)) mod 2 ^ 64 in
  sum_after_touch (mmap_vec_buffer sz) n w total /\
  sum_after_touch hp_vec_buffer n w total /\
  sum_after_touch vec_buffer n w total.
Proof.
  intros Hn q r total.
  assert (Htotal : post_touch_sum n = total).
  { apply post_touch_sum_closed.
    - lia.
    - apply Z.div_mod. lia.
    - apply Z.mod_pos_bound. lia. }
  rewrite <- Htotal.
  split; [| split].
  - apply (sum_after_touch_value (mmap_vec_laws sz)); exact Hn.
  - apply (sum_after_touch_value hp_vec_laws); exact Hn.
  - apply (sum_after_touch_value vec_laws); exact Hn.
Qed.

Lemma sum_after_touch_closed_form_witness :
  0 <= 2 ^ 32 + 5 < 2 ^ 64 /\
  sum_after_touch (mmap_vec_buffer 21) (2 ^ 32 + 5) demo_world
                  18446744071562067978 /\
  sum_after_touch hp_vec_buffer (2 ^ 32 + 5) demo_world 18446744071562067978 /\
  sum_after_touch vec_buffer (2 ^ 32 + 5) demo_world 18446744071562067978.
Proof.
  split; [lia |].
  apply (sum_after_touch_closed_form (2 ^ 32 + 5) demo_world 21). lia.
Defined.
